(** * WebSocket hub of the trading server: registry, fan-out, sessions

    A shallow embedding of the [websocket] package (Hub, Client, Message,
    Subscription and their methods) together with the properties of the
    hub that the specification states.

    Conventions of the embedding.
    - A [*Client] is an address [ptr] into a store [mem] of client objects;
      the hub's [clients] field is the Go map [map[*Client]bool] keyed by
      such addresses.  Two goroutines holding the same pointer see the same
      object, so closing [c.send] in one method is visible to all others.
    - A buffered Go channel is a record with its pending items, its
      capacity and a closed flag.  Sending on a closed channel and closing
      a closed channel are run-time panics; a panic in any goroutine ends
      the process, so every operation returns a [result].
    - Each method body and each case of the hub's loop runs as one step;
      the interleavings of the goroutines are the orders of such steps.
    - [time.Time] is a number of nanoseconds since the Unix epoch; the
      clock readings taken within one step are one reading.
    - [encoding/json] is not part of the repository: its four uses are
      parameters of the development. *)

From Stdlib Require Import ZArith Ascii String List Lia.
From stdpp Require Import gmap strings list fin_maps pretty.

Local Open Scope string_scope.
Local Open Scope Z_scope.

(** ** Go run-time: results, time, channels *)

Inductive panic : Type :=
  | send_on_closed_channel
  | close_of_closed_channel
  | nil_pointer_dereference.

Inductive result (A : Type) : Type :=
  | Ok (a : A)
  | Panic (why : panic).
Arguments Ok {A} a.
Arguments Panic {A} why.

#[global] Instance result_ret : MRet result := fun A a => Ok a.

#[global] Instance result_bind : MBind result := fun A B k r =>
  match r with
  | Ok a => k a
  | Panic why => Panic why
  end.

Definition Time : Type := Z.
Definition Duration : Type := Z.

Definition Second : Duration := 1000000000.

(** [t.Unix()]: whole seconds since the epoch. *)
Definition Unix (t : Time) : Z := t / Second.

Definition bytes : Type := string.

Record chan : Type := mkChan {
  buf : list bytes;
  cap : nat;
  closed : bool
}.

(** [make(chan []byte, n)] *)
Definition make_chan (n : nat) : chan :=
  {| buf := []; cap := n; closed := false |}.

(** [close(ch)] *)
Definition chan_close (ch : chan) : result chan :=
  if closed ch then Panic close_of_closed_channel
  else Ok {| buf := buf ch; cap := cap ch; closed := true |}.

Inductive select_outcome : Type :=
  | Sent (ch' : chan)
  | Default.

(** [select { case ch <- v: ... default: ... }]: the send case is taken
    when the buffer has room, the default case when it is full; on a
    closed channel the send case panics. *)
Definition select_send (ch : chan) (v : bytes) : result select_outcome :=
  if closed ch then Panic send_on_closed_channel
  else if (length (buf ch) <? cap ch)%nat
       then Ok (Sent {| buf := buf ch ++ [v]; cap := cap ch; closed := false |})
       else Ok Default.

Definition chan_full (ch : chan) : bool := negb (length (buf ch) <? cap ch)%nat.

(** ** Data model *)

Record Subscription : Type := mkSubscription {
  Subscription_Type : string;
  Instruments : list string;
  AccountIDs : list string
}.

(** The dynamic values that occur in the [Data interface{}] field. *)
Inductive Value : Type :=
  | VNil
  | VStringMap (m : gmap string string)
  | VSubscription (s : Subscription)
  | VDecoded (raw : bytes)
  | VOther (tag : nat).

Record Message : Type := mkMessage {
  Type_ : string;
  Action : string;
  Data : Value;
  Error : string;
  Timestamp : Z;
  ClientID : string
}.

Definition ptr : Type := nat.

Record Client : Type := mkClient {
  send : chan;
  userID : string;
  clientID : string;
  subscriptions : gmap string bool
}.

(** The hub's registry together with the store of client objects. *)
Record World : Type := mkWorld {
  clients : gmap ptr bool;
  mem : gmap ptr Client
}.

Definition writeWait : Duration := 10 * Second.
Definition pongWait : Duration := 60 * Second.
Definition pingPeriod : Duration := Z.quot (pongWait * 9) 10.
Definition maxMessageSize : Z := 512.

Definition load (p : ptr) (w : World) : result Client :=
  match mem w !! p with
  | Some c => Ok c
  | None => Panic nil_pointer_dereference
  end.

Definition set_send (c : Client) (ch : chan) : Client :=
  {| send := ch; userID := userID c; clientID := clientID c;
     subscriptions := subscriptions c |}.

Definition set_subscriptions (c : Client) (s : gmap string bool) : Client :=
  {| send := send c; userID := userID c; clientID := clientID c;
     subscriptions := s |}.

Definition store (p : ptr) (c : Client) (w : World) : World :=
  {| clients := clients w; mem := <[p := c]> (mem w) |}.

Definition set_clients (w : World) (m : gmap ptr bool) : World :=
  {| clients := m; mem := mem w |}.

(** [NewHub] *)
Definition NewHub : World := {| clients := ∅; mem := ∅ |}.

(** [m[k]] on a [map[string]bool]: the zero value when the key is absent. *)
Definition index_bool (m : gmap string bool) (k : string) : bool :=
  default false (m !! k).

(** One select of a fan-out loop, for the record of what a loop did. *)
Inductive attempt : Type :=
  | Enqueued (p : ptr)
  | Evicted (p : ptr).

Definition attempt_client (a : attempt) : ptr :=
  match a with Enqueued p => p | Evicted p => p end.

Section Hub.

(** [json.Marshal(message)], [json.Unmarshal(data, &message)],
    [json.Marshal(message.Data)] and [json.Unmarshal(data, &subscription)];
    [None] is a non-nil error. *)
Variable json_Marshal : Message -> option bytes.
Variable json_Unmarshal_Message : bytes -> option Message.
Variable json_Marshal_Value : Value -> option bytes.
Variable json_Unmarshal_Subscription : bytes -> option Subscription.

(** [Client.SendMessage] *)
Definition SendMessage (p : ptr) (message : Message) (now : Time) (w : World)
  : result World :=
  c ← load p w;
  let message :=
    {| Type_ := Type_ message; Action := Action message; Data := Data message;
       Error := Error message; Timestamp := Unix now; ClientID := clientID c |} in
  match json_Marshal message with
  | None => Ok w
  | Some data =>
      o ← select_send (send c) data;
      match o with
      | Sent ch' => Ok (store p (set_send c ch') w)
      | Default =>
          ch' ← chan_close (send c);
          Ok (store p (set_send c ch') w)
      end
  end.

(** [Hub.Run], case [client := <-h.register] *)
Definition Run_register (p : ptr) (now : Time) (w : World) : result World :=
  let w := set_clients w (<[p := true]> (clients w)) in
  c ← load p w;
  let welcomeMsg :=
    {| Type_ := "system"; Action := "connected";
       Data := VStringMap {[ "client_id" := clientID c ]};
       Error := ""; Timestamp := Unix now; ClientID := "" |} in
  SendMessage p welcomeMsg now w.

(** [Hub.Run], case [client := <-h.unregister] *)
Definition Run_unregister (p : ptr) (w : World) : result World :=
  match clients w !! p with
  | Some _ =>
      let w := set_clients w (delete p (clients w)) in
      c ← load p w;
      ch' ← chan_close (send c);
      Ok (store p (set_send c ch') w)
  | None => Ok w
  end.

(** The body shared by the two fan-out loops:
    [select { case client.send <- data: default: delete(h.clients, client); close(client.send) }] *)
Definition send_or_evict (data : bytes) (p : ptr) (w : World)
  : result (World * list attempt) :=
  c ← load p w;
  o ← select_send (send c) data;
  match o with
  | Sent ch' => Ok (store p (set_send c ch') w, [Enqueued p])
  | Default =>
      let w := set_clients w (delete p (clients w)) in
      ch' ← chan_close (send c);
      Ok (store p (set_send c ch') w, [Evicted p])
  end.

(** [for client := range h.clients { body }] over the keys in the order
    the run time produces them; the body only ever deletes the key it is
    visiting, so the keys visited are those present when the loop starts. *)
Fixpoint range_clients (body : ptr -> World -> result (World * list attempt))
    (keys : list ptr) (w : World) : result (World * list attempt) :=
  match keys with
  | [] => Ok (w, [])
  | p :: keys =>
      r ← body p w;
      r' ← range_clients body keys (fst r);
      Ok (fst r', (snd r ++ snd r')%list)
  end.

Definition registered_keys (w : World) : list ptr := (map_to_list (clients w)).*1.

(** [Hub.Run], case [message := <-h.broadcast] *)
Definition Run_broadcast (message : bytes) (w : World)
  : result (World * list attempt) :=
  range_clients (send_or_evict message) (registered_keys w) w.

(** [Hub.Broadcast] followed by the hub's receipt of the encoded message. *)
Definition Broadcast (message : Message) (w : World)
  : result (World * list attempt) :=
  match json_Marshal message with
  | None => Ok (w, [])
  | Some data => Run_broadcast data w
  end.

Definition subscriber_body (subscriptionType : string) (data : bytes)
    (p : ptr) (w : World) : result (World * list attempt) :=
  c ← load p w;
  if index_bool (subscriptions c) subscriptionType
  then send_or_evict data p w
  else Ok (w, []).

(** [Hub.BroadcastToSubscribers] *)
Definition BroadcastToSubscribers (subscriptionType : string) (message : Message)
    (w : World) : result (World * list attempt) :=
  match json_Marshal message with
  | None => Ok (w, [])
  | Some data =>
      range_clients (subscriber_body subscriptionType data) (registered_keys w) w
  end.

(** [generateClientID], at the clock reading [now] *)
Definition generateClientID (now : Time) : string :=
  "client_" ++ pretty now.

Definition alloc (p : ptr) (c : Client) (w : World) : World :=
  {| clients := clients w; mem := <[p := c]> (mem w) |}.

(** The address of the next [&Client{...}]. *)
Definition new_ptr (w : World) : ptr := fresh (dom (mem w)).

(** [WebSocketHandler], once the upgrade has succeeded, up to the hub's
    receipt of the registration; [user_id] is [c.Query("user_id")]. *)
Definition WebSocketHandler (user_id : string) (now : Time) (w : World)
  : result (World * ptr) :=
  let clientID := generateClientID now in
  let userID := if decide (user_id = "") then "anonymous" else user_id in
  let client :=
    {| send := make_chan 256; userID := userID; clientID := clientID;
       subscriptions := ∅ |} in
  let p := new_ptr w in
  w ← Run_register p now (alloc p client w);
  Ok (w, p).

(** [Client.handleSubscription] *)
Definition handleSubscription (p : ptr) (message : Message) (now : Time)
    (w : World) : result World :=
  let data := default "" (json_Marshal_Value (Data message)) in
  match json_Unmarshal_Subscription data with
  | None =>
      SendMessage p
        {| Type_ := "error"; Action := ""; Data := VNil;
           Error := "Invalid subscription format"; Timestamp := 0; ClientID := "" |}
        now w
  | Some subscription =>
      c ← load p w;
      let w :=
        store p (set_subscriptions c
                   (<[Subscription_Type subscription := true]> (subscriptions c))) w in
      SendMessage p
        {| Type_ := "subscription"; Action := "subscribed";
           Data := VSubscription subscription;
           Error := ""; Timestamp := 0; ClientID := "" |}
        now w
  end.

(** [Client.handleUnsubscription] *)
Definition handleUnsubscription (p : ptr) (message : Message) (now : Time)
    (w : World) : result World :=
  let data := default "" (json_Marshal_Value (Data message)) in
  match json_Unmarshal_Subscription data with
  | None =>
      SendMessage p
        {| Type_ := "error"; Action := ""; Data := VNil;
           Error := "Invalid unsubscription format"; Timestamp := 0; ClientID := "" |}
        now w
  | Some subscription =>
      c ← load p w;
      let w :=
        store p (set_subscriptions c
                   (delete (Subscription_Type subscription) (subscriptions c))) w in
      SendMessage p
        {| Type_ := "subscription"; Action := "unsubscribed";
           Data := VSubscription subscription;
           Error := ""; Timestamp := 0; ClientID := "" |}
        now w
  end.

(** [Client.handleMessage] *)
Definition handleMessage (p : ptr) (message : Message) (now : Time) (w : World)
  : result World :=
  if decide (Type_ message = "subscribe") then handleSubscription p message now w
  else if decide (Type_ message = "unsubscribe") then handleUnsubscription p message now w
  else if decide (Type_ message = "ping") then
    SendMessage p
      {| Type_ := "pong"; Action := "ping_response"; Data := VNil;
         Error := ""; Timestamp := 0; ClientID := "" |}
      now w
  else
    SendMessage p
      {| Type_ := "error"; Action := ""; Data := VNil;
         Error := "Unknown message type"; Timestamp := 0; ClientID := "" |}
      now w.

(** One turn of the loop of [Client.readPump] after [ReadMessage] has
    returned [messageData] without error. *)
Definition readPump_frame (p : ptr) (messageData : bytes) (now : Time) (w : World)
  : result World :=
  match json_Unmarshal_Message messageData with
  | None =>
      SendMessage p
        {| Type_ := "error"; Action := ""; Data := VNil;
           Error := "Invalid message format"; Timestamp := 0; ClientID := "" |}
        now w
  | Some message => handleMessage p message now w
  end.

(** What the transport delivers to [c.conn.ReadMessage]. *)
Inductive inbound : Type :=
  | InPong (at_ : Time)
  | InData (at_ : Time) (messageData : bytes)
  | InError (at_ : Time).

Definition arrival (i : inbound) : Time :=
  match i with InPong t => t | InData t _ => t | InError t => t end.

Inductive pump_status : Type :=
  | Reading (deadline : Time)
  | Exited.

(** The loop of [Client.readPump] under a read deadline.  Nothing that
    arrives after the deadline is read, and a read still pending when the
    deadline passes times out: [ReadMessage] fails, the loop breaks and
    the deferred [c.hub.unregister <- c] runs.  A pong is
    consumed inside [ReadMessage] by the pong handler, which is the only
    place in the loop that sets the deadline again. *)
Fixpoint readPump_loop (p : ptr) (deadline : Time) (frames : list inbound)
    (until : Time) (w : World) : result (World * pump_status) :=
  match frames with
  | [] =>
      if deadline <? until then
        w ← Run_unregister p w; Ok (w, Exited)
      else Ok (w, Reading deadline)
  | i :: frames =>
      if deadline <? arrival i then
        w ← Run_unregister p w; Ok (w, Exited)
      else
        match i with
        | InPong now => readPump_loop p (now + pongWait) frames until w
        | InData now messageData =>
            if maxMessageSize <? Z.of_nat (String.length messageData) then
              w ← Run_unregister p w; Ok (w, Exited)
            else
              w ← readPump_frame p messageData now w;
              readPump_loop p deadline frames until w
        | InError _ => w ← Run_unregister p w; Ok (w, Exited)
        end
  end.

(** [Client.readPump], started at [start] and observed up to [until];
    [frames] is everything the peer sends in that time. *)
Definition readPump (p : ptr) (start : Time) (frames : list inbound)
    (until : Time) (w : World) : result (World * pump_status) :=
  readPump_loop p (start + pongWait) frames until w.

(** What the connection does with one write of [Client.writePump]:
    [c.conn.NextWriter] gives a writer and [w.Close] flushes it, or one of
    the two returns an error. *)
Inductive transport : Type :=
  | WriterOk
  | NextWriterFails
  | CloseFails.

(** What one turn of the [case message, ok := <-c.send] branch did. *)
Inductive written : Type :=
  | Waiting                       (* nothing to receive: the pump blocks *)
  | CloseFrame                    (* [!ok]: close frame written, the pump returns *)
  | Dropped (message : bytes)     (* [NextWriter] failed: [message] was received,
                                     nothing is written, the pump returns *)
  | Batch (messages : list bytes) (flushed : bool).
                                  (* [messages] written to one writer; when
                                     [w.Close] failed ([flushed = false]) the
                                     pump returns *)

(** The [<-c.send] branch of [Client.writePump]: the receive
    [message, ok := <-c.send], then, with a writer, the [len(c.send)]
    further receives.  When [NextWriter] fails the pump has taken
    [message] only and returns, leaving the rest of the queue.  Whether
    the pump is still running is not part of the state: a sequence of
    events may have a turn of a pump that has returned, which the program
    has not. *)
Definition writePump_recv (p : ptr) (conn : transport) (w : World)
  : result (World * written) :=
  c ← load p w;
  match buf (send c) with
  | [] => if closed (send c) then Ok (w, CloseFrame) else Ok (w, Waiting)
  | message :: queued =>
      match conn with
      | NextWriterFails =>
          let ch := {| buf := queued; cap := cap (send c);
                       closed := closed (send c) |} in
          Ok (store p (set_send c ch) w, Dropped message)
      | WriterOk =>
          let ch := {| buf := []; cap := cap (send c);
                       closed := closed (send c) |} in
          Ok (store p (set_send c ch) w, Batch (message :: queued) true)
      | CloseFails =>
          let ch := {| buf := []; cap := cap (send c);
                       closed := closed (send c) |} in
          Ok (store p (set_send c ch) w, Batch (message :: queued) false)
      end
  end.

(** ** The system as a sequence of events *)

Inductive event : Type :=
  | EvConnect (user_id : string) (now : Time)
  | EvUnregister (p : ptr)
  | EvBroadcast (message : Message)
  | EvBroadcastToSubscribers (subscriptionType : string) (message : Message)
  | EvFrame (p : ptr) (messageData : bytes) (now : Time)
  | EvWrite (p : ptr) (conn : transport).

(** One event, taken as a whole.  The cases of the [select] in [Hub.Run]
    do run one after the other, on the hub's goroutine, and a channel
    operation of a pump is atomic.  [BroadcastToSubscribers] runs on the
    goroutine of its caller: here it comes between two events of the hub,
    where in the program its walk of [h.clients] may also overlap one of
    them. *)
Definition step (e : event) (w : World) : result World :=
  match e with
  | EvConnect user_id now => r ← WebSocketHandler user_id now w; Ok (fst r)
  | EvUnregister p => Run_unregister p w
  | EvBroadcast message => r ← Broadcast message w; Ok (fst r)
  | EvBroadcastToSubscribers t message =>
      r ← BroadcastToSubscribers t message w; Ok (fst r)
  | EvFrame p messageData now => readPump_frame p messageData now w
  | EvWrite p conn => r ← writePump_recv p conn w; Ok (fst r)
  end.

Fixpoint run (es : list event) (w : World) : result World :=
  match es with
  | [] => Ok w
  | e :: es => w ← step e w; run es w
  end.

End Hub.

(** ** A stand-in codec, to run the model on concrete inputs

    Frames are [kind:payload]; a subscription payload is
    [topic;instrument,...;account,...].  A frame that starts with [!] does
    not decode, and a [VOther] value does not encode. *)

Module Codec.

Fixpoint split_on (sep : ascii) (s : string) (acc : string) : list string :=
  match s with
  | EmptyString => [String.rev acc]
  | String a s =>
      if Ascii.eqb a sep then String.rev acc :: split_on sep s ""
      else split_on sep s (String a acc)
  end.

Definition join (sep : string) (l : list string) : string :=
  String.concat sep l.

Definition Marshal_Value (v : Value) : option bytes :=
  match v with
  | VNil => Some "null"
  | VStringMap m =>
      Some (join "," ((fun kv => fst kv ++ "=" ++ snd kv) <$> map_to_list m))
  | VSubscription s =>
      Some (join ";" [Subscription_Type s; join "," (Instruments s);
                      join "," (AccountIDs s)])
  | VDecoded raw => Some raw
  | VOther _ => None
  end.

Definition Marshal (m : Message) : option bytes :=
  match Marshal_Value (Data m) with
  | None => None
  | Some d =>
      Some (join "|" [Type_ m; Action m; d; Error m; pretty (Timestamp m);
                      ClientID m])
  end.

Definition Unmarshal_Message (data : bytes) : option Message :=
  match data with
  | EmptyString => None
  | String "!" _ => None
  | _ =>
      match split_on ":" data "" with
      | [kind] =>
          Some {| Type_ := kind; Action := ""; Data := VNil; Error := "";
                  Timestamp := 0; ClientID := "" |}
      | kind :: payload =>
          Some {| Type_ := kind; Action := ""; Data := VDecoded (join ":" payload);
                  Error := ""; Timestamp := 0; ClientID := "" |}
      | [] => None
      end
  end.

Definition list_of (s : string) : list string :=
  if decide (s = "") then [] else split_on "," s "".

Definition Unmarshal_Subscription (data : bytes) : option Subscription :=
  match split_on ";" data "" with
  | [topic] =>
      if decide (data = "") then None
      else Some {| Subscription_Type := topic; Instruments := []; AccountIDs := [] |}
  | [topic; ins] =>
      Some {| Subscription_Type := topic; Instruments := list_of ins;
              AccountIDs := [] |}
  | [topic; ins; accs] =>
      Some {| Subscription_Type := topic; Instruments := list_of ins;
              AccountIDs := list_of accs |}
  | _ => None
  end.

Definition step : event -> World -> result World :=
  step Marshal Unmarshal_Message Marshal_Value Unmarshal_Subscription.

Definition run : list event -> World -> result World :=
  run Marshal Unmarshal_Message Marshal_Value Unmarshal_Subscription.

Definition world_of (r : result World) : World :=
  match r with Ok w => w | Panic _ => NewHub end.

Definition note (kind : string) : Message :=
  {| Type_ := kind; Action := ""; Data := VNil; Error := ""; Timestamp := 0;
     ClientID := "" |}.

(** Two connections and a burst of 255 publishes; the write pump of the
    second client has kept up, that of the first has not: its queue holds
    the 256 envelopes it has room for. *)
Definition slow_and_fast : World :=
  world_of (run ([EvConnect "alice" (5 * Second); EvConnect "" (6 * Second)]
                 ++ repeat (EvBroadcast (note "tick")) 255
                 ++ [EvWrite 1%nat WriterOk]) NewHub).



(** A decoded subscribe frame with the given payload. *)
Definition subscribe (payload : bytes) : Message :=
  {| Type_ := "subscribe"; Action := ""; Data := VDecoded payload; Error := "";
     Timestamp := 0; ClientID := "" |}.





(** Two connections; the first has subscribed to [orders]. *)
Definition one_subscriber : World :=
  world_of (run [EvConnect "alice" (5 * Second); EvConnect "" (6 * Second);
                 EvFrame 0%nat "subscribe:orders" (7 * Second)] NewHub).

(** The first client of [one_subscriber]. *)
Definition alice : Client :=
  {| send :=
       {| buf := ["system|connected|client_id=client_5000000000||5|client_5000000000";
                  "subscription|subscribed|orders;;||7|client_5000000000"];
          cap := 256; closed := false |};
     userID := "alice"; clientID := "client_5000000000";
     subscriptions := {[ "orders" := true ]} |}.

(** The second client of [one_subscriber]. *)
Definition bob : Client :=
  {| send :=
       {| buf := ["system|connected|client_id=client_6000000000||6|client_6000000000"];
          cap := 256; closed := false |};
     userID := "anonymous"; clientID := "client_6000000000";
     subscriptions := ∅ |}.

(** The client object [WebSocketHandler] builds at second 5 for a request
    without [user_id], and the store that holds it before the hub has
    seen its registration. *)
Definition fresh_client : Client :=
  {| send := make_chan 256; userID := "anonymous";
     clientID := generateClientID (5 * Second); subscriptions := ∅ |}.

Definition accepted : World := alloc (new_ptr NewHub) fresh_client NewHub.

(** One connection whose write pump is stalled on a slow peer: the
    welcome envelope and 255 publishes fill its queue. *)
Definition stalled : list event :=
  EvConnect "alice" (5 * Second) :: repeat (EvBroadcast (note "tick")) 255.

(** One connection that has subscribed to [orders] and whose write pump is
    stalled: the welcome envelope, the reply to the subscribe request and
    254 publishes fill its queue. *)
Definition stalled_subscriber : list event :=
  EvConnect "alice" (5 * Second) :: EvFrame 0%nat "subscribe:orders" (6 * Second)
  :: repeat (EvBroadcast (note "tick")) 254.

Definition full_subscriber : World := world_of (run stalled_subscriber NewHub).

Definition readPump_frame : ptr -> bytes -> Time -> World -> result World :=
  readPump_frame Marshal Unmarshal_Message Marshal_Value Unmarshal_Subscription.

(** A few events after [one_subscriber]. *)
Definition session : list event :=
  [EvFrame 0%nat "subscribe:trades" (8 * Second);
   EvBroadcastToSubscribers "orders" (note "order_update");
   EvFrame 1%nat "ping" (9 * Second);
   EvWrite 0%nat WriterOk;
   EvUnregister 1%nat].

Definition after_session : World := world_of (run session one_subscriber).

(** [one_subscriber] after its second client has been unregistered, the
    client as it then is, and what may follow. *)
Definition bob_gone : World := world_of (run [EvUnregister 1%nat] one_subscriber).

Definition bob_closed : Client :=
  set_send bob {| buf := buf (send bob); cap := cap (send bob); closed := true |}.

Definition aftermath : list event :=
  [EvConnect "carol" (10 * Second); EvBroadcast (note "tick"); EvWrite 1%nat WriterOk;
   EvUnregister 1%nat].

Definition after_aftermath : World := world_of (run aftermath bob_gone).

(** Everything the hub does, on clients known and unknown. *)
Definition hub_only : list event :=
  [EvConnect "alice" (5 * Second); EvBroadcast (note "tick");
   EvUnregister 0%nat; EvUnregister 0%nat; EvUnregister 7%nat;
   EvBroadcastToSubscribers "orders" (note "order_update");
   EvConnect "" (6 * Second); EvBroadcast (note "tock")].

Definition two_ticks : list Message := [note "tick"; note "tock"].

Definition after_two_ticks : World :=
  world_of (run (EvBroadcast <$> two_ticks) one_subscriber).

(** [one_subscriber] after the read pump of its first client, started at
    second 0, has heard nothing for 61 seconds. *)
Definition silent : World :=
  world_of (match readPump Marshal Unmarshal_Message Marshal_Value
                     Unmarshal_Subscription 0%nat 0 [] (61 * Second)
                     one_subscriber with
            | Ok (w, _) => Ok w
            | Panic why => Panic why
            end).

Definition bob_answered : World :=
  world_of (readPump_frame 1%nat "ping" (9 * Second) one_subscriber).

Definition bob_subscribed : World :=
  world_of (handleSubscription Marshal Marshal_Value Unmarshal_Subscription
              1%nat (subscribe "trades;X;") (8 * Second) one_subscriber).

Definition bob_unsubscribed : World :=
  world_of (handleUnsubscription Marshal Marshal_Value Unmarshal_Subscription
              1%nat (subscribe "trades") (9 * Second) bob_subscribed).

(** Requests of two addresses, clock readings in nanoseconds. *)
Definition traffic : list (string * Time) :=
  [("10.0.0.1", 0); ("10.0.0.2", 1); ("10.0.0.1", 2); ("10.0.0.1", 3);
   ("10.0.0.1", 60 * Second + 1)].

Definition readPump
  : ptr -> Time -> list inbound -> Time -> World -> result (World * pump_status) :=
  readPump Marshal Unmarshal_Message Marshal_Value Unmarshal_Subscription.

End Codec.

(** ** What the properties are stated with *)

Definition registered (w : World) (p : ptr) : Prop := is_Some (clients w !! p).

(** The client's send channel is open. *)
Definition send_open (w : World) (p : ptr) : Prop :=
  exists c, mem w !! p = Some c /\ closed (send c) = false.

(** Every registered client has an open send channel. *)
Definition registry_open (w : World) : Prop :=
  forall p, registered w p -> send_open w p.

(** The registry invariant of the hub: registered exactly when open. *)
Definition registry_invariant (w : World) : Prop :=
  forall p c, mem w !! p = Some c ->
    (registered w p <-> closed (send c) = false).

Definition chan_push (ch : chan) (v : bytes) : chan :=
  {| buf := buf ch ++ [v]; cap := cap ch; closed := false |}.

Definition chan_shut (ch : chan) : chan :=
  {| buf := buf ch; cap := cap ch; closed := true |}.

(** The client object after one select of a fan-out loop that selects
    the clients satisfying [sel]. *)
Definition client_after (sel : Client -> bool) (data : bytes) (c : Client) : Client :=
  if sel c then
    if chan_full (send c) then set_send c (chan_shut (send c))
    else set_send c (chan_push (send c) data)
  else c.

Definition stays (sel : Client -> bool) (c : Client) : bool :=
  negb (sel c && chan_full (send c)).

Definition attempt_of (sel : Client -> bool) (p : ptr) (c : Client) : list attempt :=
  if sel c then [if chan_full (send c) then Evicted p else Enqueued p] else [].

Definition attempts_of (sel : Client -> bool) (w : World) (keys : list ptr)
  : list attempt :=
  flat_map (fun p => match mem w !! p with
                     | Some c => attempt_of sel p c
                     | None => []
                     end) keys.

(** The body of a fan-out loop that sends to the clients satisfying [sel];
    [Run_broadcast] and [BroadcastToSubscribers] are its two instances. *)
Definition select_body (sel : Client -> bool) (data : bytes) (p : ptr) (w : World)
  : result (World * list attempt) :=
  c ← load p w;
  if sel c then send_or_evict data p w else Ok (w, []).

Definition after_select (sel : Client -> bool) (data : bytes) (p : ptr) (c : Client)
    (w : World) : World :=
  {| clients := if stays sel c then clients w else delete p (clients w);
     mem := <[p := client_after sel data c]> (mem w) |}.

Definition subscribed (subscriptionType : string) (c : Client) : bool :=
  index_bool (subscriptions c) subscriptionType.

Definition registry_openb (w : World) : bool :=
  forallb (fun p => match mem w !! p with
                    | Some c => negb (closed (send c))
                    | None => false
                    end) (registered_keys w).

(** The events in which no read pump calls [SendMessage]. *)
Definition is_hub_event (e : event) : bool :=
  match e with
  | EvFrame _ _ _ => false
  | _ => true
  end.



(** The deadline in force after [frames], none of them late. *)
Fixpoint deadline_after (deadline : Time) (frames : list inbound) : Time :=
  match frames with
  | [] => deadline
  | InPong now :: frames => deadline_after (now + pongWait) frames
  | _ :: frames => deadline_after deadline frames
  end.

(** Every frame arrives no later than [pongWait] after the latest pong
    before it (after the start of the pump when there is none). *)
Fixpoint pongs_in_time (deadline : Time) (frames : list inbound) : bool :=
  match frames with
  | [] => true
  | i :: frames =>
      (arrival i <=? deadline) &&
      pongs_in_time (match i with InPong now => now + pongWait | _ => deadline end)
                    frames
  end.

(** Every frame arrives no later than [pongWait] after the frame before
    it (after [last], the start of the pump, for the first). *)
Fixpoint frames_in_time (last : Time) (frames : list inbound) : bool :=
  match frames with
  | [] => true
  | i :: frames => (arrival i <=? last + pongWait) && frames_in_time (arrival i) frames
  end.

Definition status_of (r : result (World * pump_status)) : option pump_status :=
  match r with Ok (_, st) => Some st | Panic _ => None end.

(** [ReadMessage] returns the frame to the loop, or handles it inside. *)
Definition readable (i : inbound) : bool :=
  match i with
  | InPong _ => true
  | InData _ messageData =>
      negb (maxMessageSize <? Z.of_nat (String.length messageData))
  | InError _ => false
  end.

(** The read pump is still reading at [until]. *)
Definition keeps_reading (deadline : Time) (frames : list inbound) (until : Time)
  : bool :=
  pongs_in_time deadline frames && forallb readable frames &&
  (until <=? deadline_after deadline frames).

(** The text of the error reply to a frame that does not decode or whose
    kind is not handled; [None] for a frame that [handleMessage] handles. *)
Definition bad_frame_error (json_Unmarshal_Message : bytes -> option Message)
    (messageData : bytes) : option string :=
  match json_Unmarshal_Message messageData with
  | None => Some "Invalid message format"
  | Some message =>
      if decide (Type_ message = "subscribe") then None
      else if decide (Type_ message = "unsubscribe") then None
      else if decide (Type_ message = "ping") then None
      else Some "Unknown message type"
  end.

(** What is pending on a client's send channel. *)
Definition queue (w : World) (p : ptr) : list bytes :=
  match mem w !! p with
  | Some c => buf (send c)
  | None => []
  end.

(** What a step may do to a client object: its identity and the capacity
    of its channel stay, a closed channel stays closed and gets nothing
    more (what is pending on it is a suffix of what was), and a queue
    within its capacity stays within it. *)
Definition client_step (c c' : Client) : Prop :=
  clientID c' = clientID c /\
  userID c' = userID c /\
  cap (send c') = cap (send c) /\
  (closed (send c) = true ->
     closed (send c') = true /\
     exists taken, buf (send c') = drop taken (buf (send c))) /\
  ((length (buf (send c)) <= cap (send c))%nat ->
   (length (buf (send c')) <= cap (send c'))%nat).

Definition world_step (w w' : World) : Prop :=
  forall p c, mem w !! p = Some c ->
    exists c', mem w' !! p = Some c' /\ client_step c c'.

(** The events that work on the registry: a connection, the cases of the
    hub's loop, and a by-topic publish taken as a whole. *)
Definition is_registry_event (e : event) : bool :=
  match e with
  | EvConnect _ _ | EvUnregister _ | EvBroadcast _
  | EvBroadcastToSubscribers _ _ => true
  | _ => false
  end.

(** The events handled on the hub's own goroutine, one after another: the
    three cases of the [select] in [Hub.Run] (a connection is the handler
    building the client and the [register] case taking it).  A by-topic
    publish is not among them: [BroadcastToSubscribers] walks [h.clients]
    on its caller's goroutine. *)
Definition is_loop_event (e : event) : bool :=
  match e with
  | EvConnect _ _ | EvUnregister _ | EvBroadcast _ => true
  | _ => false
  end.

(** Every registered client is in the store. *)
Definition registry_known (w : World) : Prop :=
  forall p, registered w p -> is_Some (mem w !! p).

(** The subscription a subscribe or unsubscribe request carries:
    [json.Marshal(message.Data)] read back by [json.Unmarshal]. *)
Definition decode_subscription (json_Marshal_Value : Value -> option bytes)
    (json_Unmarshal_Subscription : bytes -> option Subscription)
    (message : Message) : option Subscription :=
  json_Unmarshal_Subscription (default "" (json_Marshal_Value (Data message))).

(** ** The middleware package *)

(** [generateRequestID], at the clock reading [now] *)
Definition generateRequestID (now : Time) : string := pretty now.

Definition Minute : Duration := 60 * Second.

Definition minDuration : Duration := - 2 ^ 63.
Definition maxDuration : Duration := 2 ^ 63 - 1.

(** [t.Sub(u)]: the difference, saturated to the range of [Duration]. *)
Definition time_Sub (t u : Time) : Duration :=
  Z.max minDuration (Z.min maxDuration (t - u)).

Module Middleware.

(** The handler [RateLimit(requestsPerMinute)] returns, on the map
    [clients] it closes over, for a request of [clientIP] at [now], run
    from entry to answer with no other invocation in between: the map
    after the request and whether the request goes on ([c.Next()]) or is
    answered 429 ([c.Abort()]). *)
Definition RateLimit (requestsPerMinute : Z) (clientIP : string) (now : Time)
    (clients : gmap string (list Time)) : gmap string (list Time) * bool :=
  let clients :=
    match clients !! clientIP with
    | Some requests =>
        let validRequests :=
          filter (fun reqTime => time_Sub now reqTime < Minute) requests in
        <[clientIP := validRequests]> clients
    | None => clients
    end in
  if requestsPerMinute <=? Z.of_nat (length (default [] (clients !! clientIP)))
  then (clients, false)
  else (<[clientIP := (default [] (clients !! clientIP) ++ [now])%list]> clients, true).

(** [validateJWT] *)
Definition validateJWT (token : string) : bool := negb (String.eqb token "").

(** [strings.Split(s, sep)] for a separator of one byte. *)
Fixpoint strings_Split (s : string) (sep : ascii) : list string :=
  match s with
  | EmptyString => [""]
  | String a s =>
      if Ascii.eqb a sep then "" :: strings_Split s sep
      else match strings_Split s sep with
           | part :: parts => String a part :: parts
           | [] => [String a ""]
           end
  end.

(** The handler [Auth(validAPIKeys)] returns, on the values of the
    [X-API-Key] and [Authorization] headers (empty when absent): whether
    the request goes on or is answered 401. *)
Definition Auth (validAPIKeys : list string) (apiKey authHeader : string) : bool :=
  if negb (String.eqb apiKey "") && existsb (String.eqb apiKey) validAPIKeys
  then true
  else if negb (String.eqb authHeader "") then
    match strings_Split authHeader " " with
    | [scheme; token] =>
        if String.eqb scheme "Bearer" then validateJWT token else false
    | _ => false
    end
  else false.

End Middleware.

(** A sequence of requests, each with its client address and the clock
    reading at which the limiter sees it, each handled from entry to
    answer before the next one enters. *)
Fixpoint serve (requestsPerMinute : Z) (requests : list (string * Time))
    (clients : gmap string (list Time)) : gmap string (list Time) * list bool :=
  match requests with
  | [] => (clients, [])
  | (clientIP, now) :: requests =>
      let r := Middleware.RateLimit requestsPerMinute clientIP now clients in
      let rs := serve requestsPerMinute requests (fst r) in
      (fst rs, snd r :: snd rs)
  end.

(** The clock readings of the requests of [ip] that go on. *)
Fixpoint admitted (requestsPerMinute : Z) (ip : string)
    (requests : list (string * Time)) (clients : gmap string (list Time))
  : list Time :=
  match requests with
  | [] => []
  | (clientIP, now) :: requests =>
      let r := Middleware.RateLimit requestsPerMinute clientIP now clients in
      ((if decide (clientIP = ip) then if snd r then [now] else [] else [])
       ++ admitted requestsPerMinute ip requests (fst r))%list
  end.

(** *** The handler statement by statement

    Gin runs the handler on the goroutine of each request, and the map
    [clients] has no lock: the statements of two invocations can
    interleave.  An invocation is therefore also given as the steps it
    takes on the shared map, one per access:
    [requests, exists := clients[clientIP]];
    the write [clients[clientIP] = validRequests] after the local loop;
    the read [len(clients[clientIP])] of the limit check;
    [clients[clientIP] = append(clients[clientIP], now)]. *)
Inductive stage : Type :=
  | Entered                                  (* [clientIP] and [now] taken *)
  | Looked (requests : option (list Time))   (* the map read; [None]: [!exists] *)
  | AtLimit                                  (* before the limit check *)
  | Passed                                   (* limit check passed *)
  | Answered (next : bool).                  (* [c.Next()], or 429 and [c.Abort()] *)

Record invocation : Type :=
  { inv_clientIP : string; inv_now : Time; inv_stage : stage }.

Definition at_stage (h : invocation) (s : stage) : invocation :=
  {| inv_clientIP := inv_clientIP h; inv_now := inv_now h; inv_stage := s |}.

(** The next statement of an invocation, on the map as it is then. *)
Definition RateLimit_step (requestsPerMinute : Z) (h : invocation)
    (clients : gmap string (list Time)) : invocation * gmap string (list Time) :=
  let clientIP := inv_clientIP h in
  let now := inv_now h in
  match inv_stage h with
  | Entered => (at_stage h (Looked (clients !! clientIP)), clients)
  | Looked (Some requests) =>
      let validRequests :=
        filter (fun reqTime => time_Sub now reqTime < Minute) requests in
      (at_stage h AtLimit, <[clientIP := validRequests]> clients)
  | Looked None => (at_stage h AtLimit, clients)
  | AtLimit =>
      if requestsPerMinute <=? Z.of_nat (length (default [] (clients !! clientIP)))
      then (at_stage h (Answered false), clients)
      else (at_stage h Passed, clients)
  | Passed =>
      (at_stage h (Answered true),
       <[clientIP := (default [] (clients !! clientIP) ++ [now])%list]> clients)
  | Answered _ => (h, clients)
  end.

(** Invocations running together: [schedule] names, step by step, the
    invocation that takes its next statement. *)
Fixpoint serve_scheduled (requestsPerMinute : Z) (schedule : list nat)
    (invocations : list invocation) (clients : gmap string (list Time))
  : list invocation * gmap string (list Time) :=
  match schedule with
  | [] => (invocations, clients)
  | i :: schedule =>
      match invocations !! i with
      | Some h =>
          let r := RateLimit_step requestsPerMinute h clients in
          serve_scheduled requestsPerMinute schedule (<[i := fst r]> invocations)
            (snd r)
      | None => serve_scheduled requestsPerMinute schedule invocations clients
      end
  end.

(** The invocations of a sequence of requests, each at its entry. *)
Definition enter (requests : list (string * Time)) : list invocation :=
  (fun r => {| inv_clientIP := fst r; inv_now := snd r; inv_stage := Entered |})
    <$> requests.

(** The schedule in which no two invocations overlap: invocation [first]
    takes its four statements, then the next one, for [n] invocations. *)
Definition in_turn (first n : nat) : list nat :=
  flat_map (fun i => [i; i; i; i]) (seq first n).

(** The requests handled one after the other, from the empty map. *)
Definition handled_in_turn (requestsPerMinute : Z) (requests : list (string * Time))
  : list invocation * gmap string (list Time) :=
  serve_scheduled requestsPerMinute (in_turn 0 (length requests)) (enter requests) ∅.

(** The clock readings of the invocations for [ip] that went on to
    [c.Next()]. *)
Definition let_through (ip : string) (invocations : list invocation) : list Time :=
  flat_map (fun h => if decide (inv_clientIP h = ip)
                     then match inv_stage h with
                          | Answered true => [inv_now h]
                          | _ => []
                          end
                     else []) invocations.

(** The invocations of [requests], each answered as [next] says. *)
Definition answered (requests : list (string * Time)) (next : list bool)
  : list invocation :=
  zip_with (fun r ok => {| inv_clientIP := fst r; inv_now := snd r;
                           inv_stage := Answered ok |}) requests next.

(** The clock does not go back from one request to the next. *)
Fixpoint chronological_from (last : Time) (requests : list (string * Time)) : Prop :=
  match requests with
  | [] => True
  | r :: requests => last <= snd r /\ chronological_from (snd r) requests
  end.

Definition chronological (requests : list (string * Time)) : Prop :=
  match requests with
  | [] => True
  | r :: _ => chronological_from (snd r) requests
  end.

(** The readings that fall in the minute that ends at [t]. *)
Definition in_minute (t : Time) (times : list Time) : list Time :=
  filter (fun u => t - Minute < u /\ u <= t) times.

Definition stored (clients : gmap string (list Time)) (ip : string) : list Time :=
  default [] (clients !! ip).

(** The clock readings of all the requests of [ip], whatever became of
    them. *)
Definition times_of (ip : string) (requests : list (string * Time)) : list Time :=
  (filter (fun r => fst r = ip) requests).*2.

(** The readings less than a minute before [t]. *)
Definition recent (t : Time) (times : list Time) : list Time :=
  filter (fun u => t - u < Minute) times.

Definition has_space (s : string) : Prop := In " "%char (list_ascii_of_string s).

(** ** The main package *)

(** [TradingServer.countActiveBots], over the map [botManager.GetBots()]
    returns; [IsActive] is the field of that name of a bot's configuration. *)
Definition countActiveBots {BotConfig : Type} (IsActive : BotConfig -> bool)
    (bots : gmap string BotConfig) : Z :=
  map_fold (fun _ config count => if IsActive config then count + 1 else count)
    0 bots.

(** The [Data] of the envelopes the read pump replies with: none, or the
    subscription it echoes. *)
Definition reply_data (v : Value) : Prop :=
  v = VNil \/ exists s, v = VSubscription s.

(** ** Properties *)

Lemma bind_Ok_inv {A B : Type} (r : result A) (k : A -> result B) (b : B) :
  r ≫= k = Ok b -> exists a, r = Ok a /\ k a = Ok b.
Proof. destruct r as [a|why]; simpl; [eauto | discriminate]. Qed.

Lemma load_Ok p w c : load p w = Ok c <-> mem w !! p = Some c.
Proof.
  unfold load. destruct (mem w !! p); split; intros H; congruence.
Qed.

Lemma select_send_open ch v :
  closed ch = false ->
  select_send ch v = Ok (if chan_full ch then Default else Sent (chan_push ch v)).
Proof.
  intros Hc. unfold select_send, chan_full, chan_push. rewrite Hc.
  destruct (length (buf ch) <? cap ch)%nat; reflexivity.
Qed.

Lemma select_send_Ok_inv ch v o :
  select_send ch v = Ok o -> closed ch = false.
Proof. unfold select_send. destruct (closed ch); [discriminate | reflexivity]. Qed.

(** One select, on an open channel. *)
Lemma send_or_evict_open data p w c :
  mem w !! p = Some c -> closed (send c) = false ->
  send_or_evict data p w =
    Ok ({| clients := if chan_full (send c) then delete p (clients w) else clients w;
           mem := <[p := client_after (fun _ => true) data c]> (mem w) |},
        attempt_of (fun _ => true) p c).
Proof.
  intros Hm Hc. unfold send_or_evict, load. rewrite Hm. simpl.
  rewrite (select_send_open _ _ Hc). simpl.
  unfold client_after, attempt_of, chan_close.
  destruct (chan_full (send c)); simpl; [rewrite Hc|]; reflexivity.
Qed.

Lemma send_or_evict_Ok_inv data p w r :
  send_or_evict data p w = Ok r ->
  exists c, mem w !! p = Some c /\ closed (send c) = false.
Proof.
  unfold send_or_evict. intros H.
  apply bind_Ok_inv in H as (c & Hl & H). apply load_Ok in Hl.
  apply bind_Ok_inv in H as (o & Hs & _). apply select_send_Ok_inv in Hs.
  eauto.
Qed.

Lemma World_eq w1 w2 :
  clients w1 = clients w2 -> mem w1 = mem w2 -> w1 = w2.
Proof. destruct w1, w2; simpl; intros -> ->; reflexivity. Qed.

Lemma select_body_open sel data p w c :
  mem w !! p = Some c -> (sel c = true -> closed (send c) = false) ->
  select_body sel data p w = Ok (after_select sel data p c w, attempt_of sel p c).
Proof.
  intros Hm Hc. unfold select_body.
  assert (Hl : load p w = Ok c) by (by apply load_Ok).
  rewrite Hl. simpl.
  unfold after_select, stays, attempt_of, client_after.
  destruct (sel c) eqn:Hs; simpl.
  - rewrite (send_or_evict_open data p w c Hm (Hc eq_refl)).
    unfold client_after, attempt_of.
    destruct (chan_full (send c)); reflexivity.
  - f_equal. f_equal. apply World_eq; simpl; [reflexivity|].
    symmetry. by apply insert_id.
Qed.

Lemma select_body_Ok_inv sel data p w r :
  select_body sel data p w = Ok r ->
  exists c, mem w !! p = Some c /\ (sel c = true -> closed (send c) = false).
Proof.
  unfold select_body. intros H.
  apply bind_Ok_inv in H as (c & Hl & H). apply load_Ok in Hl.
  exists c. split; [done|]. intros Hs. rewrite Hs in H.
  apply send_or_evict_Ok_inv in H as (c' & Hm' & Hc'). congruence.
Qed.

Lemma attempts_of_ext sel w1 w2 keys :
  (forall q, q ∈ keys -> mem w1 !! q = mem w2 !! q) ->
  attempts_of sel w1 keys = attempts_of sel w2 keys.
Proof.
  induction keys as [|p keys IH]; intros H; [reflexivity|].
  unfold attempts_of in *. simpl. rewrite (H p) by set_solver.
  f_equal. apply IH. intros q Hq. apply H. set_solver.
Qed.

(** What a fan-out loop has done when it returns. *)
Lemma range_clients_char sel data keys : forall w w' log,
  NoDup keys ->
  range_clients (select_body sel data) keys w = Ok (w', log) ->
  log = attempts_of sel w keys /\
  (forall q, q ∉ keys ->
     mem w' !! q = mem w !! q /\ clients w' !! q = clients w !! q) /\
  (forall q, q ∈ keys ->
     exists c, mem w !! q = Some c /\
       (sel c = true -> closed (send c) = false) /\
       mem w' !! q = Some (client_after sel data c) /\
       clients w' !! q = if stays sel c then clients w !! q else None).
Proof.
  induction keys as [|p keys IH]; intros w w' log Hnd H.
  - simpl in H. injection H as <- <-. repeat split; [set_solver].
  - simpl in H. apply bind_Ok_inv in H as (r1 & H1 & H).
    apply bind_Ok_inv in H as ([w2 log2] & H2 & H).
    injection H as <- <-. simpl.
    apply NoDup_cons in Hnd as [Hp Hnd].
    destruct (select_body_Ok_inv _ _ _ _ _ H1) as (c & Hm & Hc).
    rewrite (select_body_open sel data p w c Hm Hc) in H1.
    injection H1 as <-. simpl in H2.
    destruct (IH _ _ _ Hnd H2) as (Hlog & Hout & Hin).
    assert (Hmem : forall q, q ≠ p ->
              mem (after_select sel data p c w) !! q = mem w !! q).
    { intros q Hq. simpl. by rewrite lookup_insert_ne. }
    assert (Hcl : forall q, q ≠ p ->
              clients (after_select sel data p c w) !! q = clients w !! q).
    { intros q Hq. simpl. destruct (stays sel c); [done|].
      by rewrite lookup_delete_ne. }
    split; [|split].
    + unfold attempts_of at 1. simpl. rewrite Hm. f_equal.
      rewrite Hlog. apply attempts_of_ext.
      intros q Hq. apply Hmem. intros ->. done.
    + intros q Hq. apply not_elem_of_cons in Hq as [Hne Hq].
      destruct (Hout q Hq) as [-> ->]. by rewrite Hmem, Hcl.
    + intros q Hq. apply elem_of_cons in Hq as [->|Hq].
      * exists c. split; [done|]. split; [done|].
        destruct (Hout p Hp) as [-> ->]. simpl.
        rewrite lookup_insert_eq. split; [done|].
        destruct (stays sel c); [done|]. by rewrite lookup_delete_eq.
      * assert (q ≠ p) as Hne by (intros ->; done).
        destruct (Hin q Hq) as (c' & Hm' & Hc' & Hm2 & Hcl2).
        exists c'. rewrite <- (Hmem q Hne). split; [done|]. split; [done|].
        split; [done|]. rewrite Hcl2. by rewrite (Hcl q Hne).
Qed.

(** A fan-out loop returns when the clients it selects have open channels. *)
Lemma range_clients_total sel data keys : forall w,
  NoDup keys ->
  (forall q, q ∈ keys ->
     exists c, mem w !! q = Some c /\ (sel c = true -> closed (send c) = false)) ->
  exists r, range_clients (select_body sel data) keys w = Ok r.
Proof.
  induction keys as [|p keys IH]; intros w Hnd Hopen.
  - simpl. eauto.
  - apply NoDup_cons in Hnd as [Hp Hnd].
    destruct (Hopen p) as (c & Hm & Hc); [set_solver|].
    simpl. rewrite (select_body_open sel data p w c Hm Hc). simpl.
    destruct (IH (after_select sel data p c w) Hnd) as [r Hr].
    { intros q Hq. assert (q ≠ p) as Hne by (intros ->; done).
      simpl. rewrite lookup_insert_ne by done. apply Hopen. set_solver. }
    rewrite Hr. simpl. eauto.
Qed.

Lemma registered_keys_NoDup w : NoDup (registered_keys w).
Proof. apply NoDup_fst_map_to_list. Qed.

Lemma elem_of_registered_keys w p : p ∈ registered_keys w <-> registered w p.
Proof.
  unfold registered_keys, registered. rewrite list_elem_of_fmap. split.
  - intros ([q b] & -> & H). apply elem_of_map_to_list in H. eauto.
  - intros [b H]. exists (p, b). split; [done|]. by apply elem_of_map_to_list.
Qed.

Lemma length_registered_keys w : length (registered_keys w) = size (clients w).
Proof. unfold registered_keys. rewrite length_fmap. apply length_map_to_list. Qed.

Lemma send_or_evict_select_body data p w :
  send_or_evict data p w = select_body (fun _ => true) data p w.
Proof.
  unfold select_body, send_or_evict. destruct (load p w); reflexivity.
Qed.

Lemma range_clients_ext body1 body2 keys : forall w,
  (forall p w, body1 p w = body2 p w) ->
  range_clients body1 keys w = range_clients body2 keys w.
Proof.
  induction keys as [|p keys IH]; intros w H; [reflexivity|].
  simpl. rewrite H. destruct (body2 p w) as [r|]; simpl; [|reflexivity].
  by rewrite IH.
Qed.

Lemma Run_broadcast_select data w :
  Run_broadcast data w =
  range_clients (select_body (fun _ => true) data) (registered_keys w) w.
Proof.
  unfold Run_broadcast. apply range_clients_ext. intros.
  apply send_or_evict_select_body.
Qed.

Lemma registry_openb_sound w : registry_openb w = true -> registry_open w.
Proof.
  unfold registry_openb, registry_open, send_open. intros H p Hp.
  rewrite forallb_forall in H. specialize (H p).
  rewrite <- list_elem_of_In, elem_of_registered_keys in H. specialize (H Hp).
  destruct (mem w !! p) as [c|]; [|discriminate].
  exists c. split; [done|]. by destruct (closed (send c)).
Qed.

Lemma registry_open_keys sel w q :
  registry_open w -> q ∈ registered_keys w ->
  exists c, mem w !! q = Some c /\ (sel c = true -> closed (send c) = false).
Proof.
  intros Hw Hq. apply elem_of_registered_keys in Hq.
  destruct (Hw q Hq) as (c & Hm & Hc). eauto.
Qed.

Lemma attempts_of_all w keys :
  (forall q, q ∈ keys -> is_Some (mem w !! q)) ->
  attempt_client <$> attempts_of (fun _ => true) w keys = keys.
Proof.
  induction keys as [|p keys IH]; intros H; [reflexivity|].
  unfold attempts_of in *. simpl. rewrite fmap_app.
  rewrite IH by (intros q Hq; apply H; set_solver).
  destruct (H p) as [c Hc]; [set_solver|]. rewrite Hc.
  unfold attempt_of. simpl. by destruct (chan_full (send c)).
Qed.

Lemma elem_of_attempts_of sel w keys a :
  a ∈ attempts_of sel w keys <->
  exists p c, p ∈ keys /\ mem w !! p = Some c /\ a ∈ attempt_of sel p c.
Proof.
  unfold attempts_of. rewrite list_elem_of_In, in_flat_map. split.
  - intros (p & Hp & Ha). apply list_elem_of_In in Hp, Ha.
    destruct (mem w !! p) as [c|] eqn:Hm; [|set_solver]. eauto.
  - intros (p & c & Hp & Hm & Ha). exists p.
    rewrite <- !list_elem_of_In. rewrite Hm. done.
Qed.

Lemma Run_unregister_open p w c :
  registered w p -> mem w !! p = Some c -> closed (send c) = false ->
  Run_unregister p w =
    Ok {| clients := delete p (clients w);
          mem := <[p := set_send c (chan_shut (send c))]> (mem w) |}.
Proof.
  intros [b Hb] Hm Hc. unfold Run_unregister. rewrite Hb.
  unfold load. simpl. rewrite Hm. simpl.
  unfold chan_close. rewrite Hc. reflexivity.
Qed.

(** The broadcast case of [Hub.Run] where the registry invariant holds.
    A broadcast processed while N clients are registered, all with open
    queues, makes exactly N non-blocking enqueue attempts, one per
    registered client.  A registered client whose queue is full is evicted
    on the spot, with the effect [Run_unregister] has on it (out of the
    registry, queue closed, nothing enqueued); every other registered
    client, whatever happens to the rest, has the message appended to its
    queue and stays registered; clients that are not registered are not
    touched. *)
Lemma Run_broadcast_fan_out (data : bytes) (w : World) :
  registry_open w ->
  exists w' log,
    Run_broadcast data w = Ok (w', log) /\
    length log = size (clients w) /\
    attempt_client <$> log = registered_keys w /\
    (forall p c, registered w p -> mem w !! p = Some c ->
       if chan_full (send c) then
         Evicted p ∈ log /\
         clients w' !! p = None /\
         mem w' !! p = Some (set_send c (chan_shut (send c))) /\
         exists wu, Run_unregister p w = Ok wu /\
           clients wu !! p = clients w' !! p /\ mem wu !! p = mem w' !! p
       else
         Enqueued p ∈ log /\
         clients w' !! p = clients w !! p /\
         mem w' !! p = Some (set_send c (chan_push (send c) data))) /\
    (forall p, ~ registered w p ->
       clients w' !! p = None /\ mem w' !! p = mem w !! p).
Proof.
  intros Hw. rewrite Run_broadcast_select.
  destruct (range_clients_total (fun _ => true) data (registered_keys w) w)
    as [[w' log] Hr].
  { apply registered_keys_NoDup. }
  { intros q Hq. by apply registry_open_keys. }
  exists w', log. split; [done|].
  destruct (range_clients_char _ _ _ _ _ _ (registered_keys_NoDup w) Hr)
    as (Hlog & Hout & Hin).
  assert (Hkeys : attempt_client <$> log = registered_keys w).
  { rewrite Hlog. apply attempts_of_all. intros q Hq.
    destruct (registry_open_keys (fun _ => true) w q Hw Hq) as (c & Hm & _).
    eauto. }
  split; [|split; [done|split]].
  - rewrite <- length_registered_keys, <- Hkeys. by rewrite length_fmap.
  - intros p c Hp Hm.
    assert (Hk : p ∈ registered_keys w) by (by apply elem_of_registered_keys).
    destruct (Hin p Hk) as (c' & Hm' & Hc & Hm2 & Hcl).
    assert (c' = c) as -> by congruence.
    specialize (Hc eq_refl).
    assert (Ha : forall a, a ∈ attempt_of (fun _ => true) p c -> a ∈ log).
    { intros a Ha. rewrite Hlog. apply elem_of_attempts_of. eauto. }
    unfold client_after, stays in *. unfold attempt_of in Ha. simpl in *.
    destruct (chan_full (send c)); simpl in *.
    + split; [apply Ha, list_elem_of_here|]. split; [done|]. split; [done|].
      eexists. split; [by apply Run_unregister_open|]. simpl.
      by rewrite lookup_delete_eq, lookup_insert_eq.
    + split; [apply Ha, list_elem_of_here|]. done.
  - intros p Hp.
    assert (Hk : p ∉ registered_keys w) by (by rewrite elem_of_registered_keys).
    destruct (Hout p Hk) as [-> ->]. split; [|done].
    unfold registered in Hp. destruct (clients w !! p) eqn:E; [|done].
    exfalso. apply Hp. eauto.
Qed.

(** The fan-out of a publish at [slow_and_fast]: two registered clients, two
    attempts. *)
Lemma Run_broadcast_fan_out_slow_and_fast :
  registry_open Codec.slow_and_fast /\
  exists w' log,
    Run_broadcast "tock" Codec.slow_and_fast = Ok (w', log) /\
    length log = 2%nat.
Proof.
  assert (H : registry_open Codec.slow_and_fast).
  { apply registry_openb_sound. vm_compute. reflexivity. }
  split; [exact H|].
  destruct (Run_broadcast_fan_out "tock" Codec.slow_and_fast H)
    as (w' & log & Hr & Hlen & _).
  exists w', log. split; [exact Hr|]. rewrite Hlen. vm_compute. reflexivity.
Qed.

(** The broadcast case returns only where every registered client has an
    open queue: with one closed channel in the registry it panics. *)
Lemma Run_broadcast_Ok_registry_open (data : bytes) (w w' : World)
    (log : list attempt) :
  Run_broadcast data w = Ok (w', log) -> registry_open w.
Proof.
  rewrite Run_broadcast_select. intros Hr p Hp.
  destruct (range_clients_char _ _ _ _ _ _ (registered_keys_NoDup w) Hr)
    as (_ & _ & Hin).
  destruct (Hin p) as (c & Hm & Hc & _); [by apply elem_of_registered_keys|].
  exists c. split; [done|]. by apply Hc.
Qed.

Lemma elem_of_attempt_clients sel w keys p :
  p ∈ attempt_client <$> attempts_of sel w keys <->
  p ∈ keys /\ exists c, mem w !! p = Some c /\ sel c = true.
Proof.
  rewrite list_elem_of_fmap. split.
  - intros (a & -> & Ha). apply elem_of_attempts_of in Ha as (q & c & Hq & Hm & Ha).
    unfold attempt_of in Ha. destruct (sel c) eqn:Hs; [|by apply elem_of_nil in Ha].
    apply list_elem_of_singleton in Ha as ->.
    destruct (chan_full (send c)); simpl; eauto.
  - intros (Hp & c & Hm & Hs).
    exists (if chan_full (send c) then Evicted p else Enqueued p).
    split; [by destruct (chan_full (send c))|].
    apply elem_of_attempts_of. exists p, c. split; [done|]. split; [done|].
    unfold attempt_of. rewrite Hs. apply list_elem_of_here.
Qed.

(** A fan-out loop over distinct clients attempts no client twice. *)
Lemma attempt_clients_NoDup sel w keys :
  NoDup keys -> NoDup (attempt_client <$> attempts_of sel w keys).
Proof.
  induction keys as [|p keys IH]; intros Hnd; [constructor|].
  apply NoDup_cons in Hnd as [Hp Hnd].
  change (attempts_of sel w (p :: keys))
    with ((match mem w !! p with
           | Some c => attempt_of sel p c
           | None => []
           end ++ attempts_of sel w keys)%list).
  rewrite fmap_app. apply NoDup_app. split; [|split; [|by apply IH]].
  - destruct (mem w !! p) as [c|]; [|constructor].
    unfold attempt_of. destruct (sel c); [|constructor].
    destruct (chan_full (send c)); apply NoDup_singleton.
  - intros q Hq Hq'. apply elem_of_attempt_clients in Hq' as [Hk _].
    destruct (mem w !! p) as [c|]; [|by apply elem_of_nil in Hq].
    unfold attempt_of in Hq. destruct (sel c); [|by apply elem_of_nil in Hq].
    destruct (chan_full (send c)); apply list_elem_of_singleton in Hq;
      simpl in Hq; by subst.
Qed.

Section Publish.

Variable json_Marshal : Message -> option bytes.

(** C5, as the code has it.  Whenever [BroadcastToSubscribers t m]
    returns: if [m] does not encode, nothing has been sent and nothing has
    changed.  Otherwise one non-blocking enqueue attempt has been made on
    each registered client whose subscription set contains [t], and on no
    other client: such a client, whose channel is then open, has the
    encoded envelope appended to its queue when the queue has room, and is
    evicted, with nothing enqueued, when the queue is full; a client that
    is not registered or whose subscription set does not contain [t] is
    left as it is. *)
Theorem C5_publish_to_topic (t : string) (m : Message) (w w' : World)
    (log : list attempt) :
  BroadcastToSubscribers json_Marshal t m w = Ok (w', log) ->
  match json_Marshal m with
  | None => w' = w /\ log = []
  | Some data =>
      NoDup (attempt_client <$> log) /\
      (forall p, p ∈ attempt_client <$> log <->
         registered w p /\ exists c, mem w !! p = Some c /\ subscribed t c = true) /\
      (forall p c, registered w p -> mem w !! p = Some c -> subscribed t c = true ->
         closed (send c) = false /\
         if chan_full (send c) then
           Evicted p ∈ log /\
           clients w' !! p = None /\
           mem w' !! p = Some (set_send c (chan_shut (send c)))
         else
           Enqueued p ∈ log /\
           clients w' !! p = clients w !! p /\
           mem w' !! p = Some (set_send c (chan_push (send c) data))) /\
      (forall p c, mem w !! p = Some c ->
         ~ (registered w p /\ subscribed t c = true) ->
         clients w' !! p = clients w !! p /\ mem w' !! p = Some c)
  end.
Proof using Type.
  unfold BroadcastToSubscribers. destruct (json_Marshal m) as [data|];
    [|by intros [= <- <-]].
  change (subscriber_body t data) with (select_body (subscribed t) data).
  intros Hr.
  destruct (range_clients_char _ _ _ _ _ _ (registered_keys_NoDup w) Hr)
    as (Hlog & Hout & Hin).
  split; [|split; [|split]].
  - rewrite Hlog. apply attempt_clients_NoDup, registered_keys_NoDup.
  - intros p. rewrite Hlog, elem_of_attempt_clients.
    by rewrite elem_of_registered_keys.
  - intros p c Hp Hm Hs.
    assert (Hk : p ∈ registered_keys w) by (by apply elem_of_registered_keys).
    destruct (Hin p Hk) as (c' & Hm' & Hc & Hm2 & Hcl).
    assert (c' = c) as -> by congruence.
    split; [by apply Hc|].
    assert (Ha : forall a, a ∈ attempt_of (subscribed t) p c -> a ∈ log).
    { intros a Ha. rewrite Hlog. apply elem_of_attempts_of. eauto. }
    unfold client_after, stays in *. unfold attempt_of in Ha.
    rewrite Hs in *. simpl in *.
    destruct (chan_full (send c)); simpl in *.
    + split; [apply Ha, list_elem_of_here|]. done.
    + split; [apply Ha, list_elem_of_here|]. done.
  - intros p c Hm Hno.
    destruct (decide (p ∈ registered_keys w)) as [Hk|Hk].
    + destruct (Hin p Hk) as (c' & Hm' & Hc & Hm2 & Hcl).
      assert (c' = c) as -> by congruence.
      apply elem_of_registered_keys in Hk.
      destruct (subscribed t c) eqn:Hs; [exfalso; by apply Hno|].
      unfold client_after, stays in *. rewrite Hs in *. simpl in *. done.
    + destruct (Hout p Hk) as [-> ->]. done.
Qed.

(** Taken by itself, the call returns wherever the registered clients
    whose subscription set contains [t] have open channels. *)
Lemma BroadcastToSubscribers_returns (t : string) (m : Message) (w : World) :
  (forall p, registered w p ->
     exists c, mem w !! p = Some c /\
       (subscribed t c = true -> closed (send c) = false)) ->
  exists r, BroadcastToSubscribers json_Marshal t m w = Ok r.
Proof using Type.
  intros Hopen. unfold BroadcastToSubscribers.
  destruct (json_Marshal m) as [data|]; [|eauto].
  change (subscriber_body t data) with (select_body (subscribed t) data).
  apply range_clients_total; [apply registered_keys_NoDup|].
  intros q Hq. apply Hopen. by apply elem_of_registered_keys.
Qed.

End Publish.

(** A publish to [orders] at [one_subscriber] attempts the subscriber only. *)
Lemma C5_publish_to_topic_witness :
  exists w' log,
    BroadcastToSubscribers Codec.Marshal "orders" (Codec.note "order_update")
      Codec.one_subscriber = Ok (w', log) /\
    log = [Enqueued 0%nat] /\
    NoDup (attempt_client <$> log) /\
    forall p, p ∈ attempt_client <$> log <->
      registered Codec.one_subscriber p /\
      exists c, mem Codec.one_subscriber !! p = Some c /\
                subscribed "orders" c = true.
Proof.
  destruct (BroadcastToSubscribers Codec.Marshal "orders"
              (Codec.note "order_update") Codec.one_subscriber)
    as [[w' log]|e] eqn:E; [|vm_compute in E; discriminate].
  exists w', log. split; [reflexivity|].
  pose proof (C5_publish_to_topic Codec.Marshal "orders"
                (Codec.note "order_update") Codec.one_subscriber w' log E) as H.
  change (Codec.Marshal (Codec.note "order_update"))
    with (Some "order_update||null||0|") in H.
  destruct H as (Hnd & Hlog & _).
  split; [|split; [exact Hnd|exact Hlog]].
  vm_compute in E. by injection E as _ <-.
Defined.

(** C5 as stated fails.  The client of [full_subscriber] is registered,
    its subscription set contains [orders], its channel is open and its
    queue is full: a publish to [orders] returns, and the envelope is not
    enqueued to that client, which is evicted instead. *)
Lemma C5_full_queue_not_enqueued :
  ~ (forall t m data w p c,
       Codec.Marshal m = Some data ->
       registered w p -> mem w !! p = Some c ->
       closed (send c) = false -> subscribed t c = true ->
       exists w' log c',
         BroadcastToSubscribers Codec.Marshal t m w = Ok (w', log) /\
         mem w' !! p = Some c' /\
         buf (send c') = (buf (send c) ++ [data])%list).
Proof.
  intros H.
  destruct (mem Codec.full_subscriber !! 0%nat) as [c|] eqn:E;
    [|vm_compute in E; discriminate].
  assert (Hc : closed (send c) = false /\ subscribed "orders" c = true /\
               length (buf (send c)) = 256%nat).
  { vm_compute in E. injection E as <-. repeat split; vm_compute; reflexivity. }
  destruct Hc as (Hc & Hs & Hlen).
  destruct (H "orders" (Codec.note "order_update") "order_update||null||0|"
              Codec.full_subscriber 0%nat c eq_refl) as (w' & log & c' & Hr & Hm & Hb);
    [by exists true|exact E|exact Hc|exact Hs|].
  apply (f_equal length) in Hb. rewrite length_app, Hlen in Hb. simpl in Hb.
  vm_compute in Hr. injection Hr as <- _.
  vm_compute in Hm. injection Hm as <-.
  vm_compute in Hb. discriminate Hb.
Qed.

(** C7. Unregister is idempotent: once an unregister event for a client
    has been processed, processing a second one, or any number of further
    ones, gives back the very same state: registry, the client's channel
    and every other client are as the first one left them. *)
Theorem C7_unregister_idempotent (p : ptr) (w w1 : World) :
  Run_unregister p w = Ok w1 ->
  Run_unregister p w1 = Ok w1 /\
  forall n : nat, Nat.iter n (fun r => r ≫= Run_unregister p) (Ok w1) = Ok w1.
Proof.
  intros H.
  assert (Hgone : clients w1 !! p = None).
  { unfold Run_unregister in H. destruct (clients w !! p) as [b|] eqn:Hb.
    - apply bind_Ok_inv in H as (c & _ & H).
      apply bind_Ok_inv in H as (ch & _ & H).
      injection H as <-. simpl. apply lookup_delete_eq.
    - injection H as <-. exact Hb. }
  assert (Hagain : Run_unregister p w1 = Ok w1).
  { unfold Run_unregister. rewrite Hgone. reflexivity. }
  split; [exact Hagain|].
  induction n as [|n IH]; [reflexivity|].
  simpl. rewrite IH. exact Hagain.
Qed.

(** Unregistering the second client of [one_subscriber] twice. *)
Lemma C7_unregister_idempotent_witness :
  exists w1, Run_unregister 1%nat Codec.one_subscriber = Ok w1 /\
             Run_unregister 1%nat w1 = Ok w1.
Proof.
  eexists. split; [vm_compute; reflexivity|].
  apply (C7_unregister_idempotent 1%nat Codec.one_subscriber).
  vm_compute. reflexivity.
Defined.

Lemma generateClientID_nonempty (now : Time) : generateClientID now <> "".
Proof. unfold generateClientID. simpl. discriminate. Qed.

Section Sending.

Variable json_Marshal : Message -> option bytes.

(** The envelope [SendMessage] encodes. *)
Lemma SendMessage_cases (p : ptr) (message : Message) (now : Time)
    (w : World) (c : Client) :
  mem w !! p = Some c ->
  SendMessage json_Marshal p message now w =
    match json_Marshal {| Type_ := Type_ message; Action := Action message;
                          Data := Data message; Error := Error message;
                          Timestamp := Unix now; ClientID := clientID c |} with
    | None => Ok w
    | Some data =>
        if closed (send c) then Panic send_on_closed_channel
        else if chan_full (send c)
             then Ok (store p (set_send c (chan_shut (send c))) w)
             else Ok (store p (set_send c (chan_push (send c) data)) w)
    end.
Proof using Type.
  intros Hm. unfold SendMessage, load. rewrite Hm. simpl.
  destruct (json_Marshal _) as [data|]; [|reflexivity].
  unfold select_send, chan_full, chan_close, chan_push, chan_shut.
  destruct (closed (send c)) eqn:Hc; [reflexivity|].
  destruct (length (buf (send c)) <? cap (send c))%nat; reflexivity.
Qed.

(** C9. [SendMessage] encodes and sends the caller's envelope with its
    [ClientID] replaced by the client's own identifier and its [Timestamp]
    by the clock reading of the send, whatever the caller had put there;
    [Type], [Action], [Data] and [Error] are the caller's.  Nothing but the
    encoding of that envelope is ever put on the queue by the call. *)
Theorem C9_SendMessage_stamps (p : ptr) (message : Message) (now : Time)
    (w : World) (c : Client) :
  mem w !! p = Some c ->
  exists out,
    ClientID out = clientID c /\
    Timestamp out = Unix now /\
    Type_ out = Type_ message /\
    Action out = Action message /\
    Data out = Data message /\
    Error out = Error message /\
    SendMessage json_Marshal p message now w =
      match json_Marshal out with
      | None => Ok w
      | Some data =>
          if closed (send c) then Panic send_on_closed_channel
          else if chan_full (send c)
               then Ok (store p (set_send c (chan_shut (send c))) w)
               else Ok (store p (set_send c (chan_push (send c) data)) w)
      end.
Proof using Type.
  intros Hm.
  exists {| Type_ := Type_ message; Action := Action message;
            Data := Data message; Error := Error message;
            Timestamp := Unix now; ClientID := clientID c |}.
  repeat (split; [reflexivity|]).
  by apply SendMessage_cases.
Qed.

(** [SendMessage] to a client whose queue is open and has room. *)
Lemma SendMessage_ready p message now w c data :
  mem w !! p = Some c -> closed (send c) = false -> chan_full (send c) = false ->
  json_Marshal {| Type_ := Type_ message; Action := Action message;
                  Data := Data message; Error := Error message;
                  Timestamp := Unix now; ClientID := clientID c |} = Some data ->
  SendMessage json_Marshal p message now w =
    Ok (store p (set_send c (chan_push (send c) data)) w).
Proof using Type.
  intros Hm Hc Hf Hd. unfold SendMessage, load. rewrite Hm. simpl.
  rewrite Hd. rewrite (select_send_open _ _ Hc), Hf. reflexivity.
Qed.

(** C8. Processing the registration event of a client whose queue is as
    the connection handler hands it over (open, with room) puts the client
    in the registry and appends to that client's queue, and to no other
    client's, the encoding of the welcome envelope: kind [system], action
    [connected], the client's identifier both as [client_id] in the data
    and as stamped [ClientID]; an identifier assigned by
    [generateClientID] is not empty. *)
Theorem C8_register_welcome (p : ptr) (now assigned : Time) (w : World)
    (c : Client) (data : bytes) :
  mem w !! p = Some c ->
  closed (send c) = false ->
  chan_full (send c) = false ->
  clientID c = generateClientID assigned ->
  json_Marshal {| Type_ := "system"; Action := "connected";
                  Data := VStringMap {[ "client_id" := clientID c ]};
                  Error := ""; Timestamp := Unix now;
                  ClientID := clientID c |} = Some data ->
  clientID c <> "" /\
  Run_register json_Marshal p now w =
    Ok {| clients := <[p := true]> (clients w);
          mem := <[p := set_send c (chan_push (send c) data)]> (mem w) |}.
Proof using Type.
  intros Hm Hc Hf Hid Hd. split.
  { rewrite Hid. apply generateClientID_nonempty. }
  unfold Run_register, load. simpl. rewrite Hm. simpl.
  erewrite SendMessage_ready; [reflexivity|exact Hm|exact Hc|exact Hf|exact Hd].
Qed.

End Sending.

(** An envelope whose caller had set a timestamp and a foreign identifier. *)
Lemma C9_SendMessage_stamps_witness :
  exists out,
    ClientID out = "client_5000000000" /\ Timestamp out = 9 /\
    Type_ out = "order_update" /\
    SendMessage Codec.Marshal 0%nat
      {| Type_ := "order_update"; Action := ""; Data := VNil; Error := "";
         Timestamp := 42; ClientID := "someone else" |}
      (9 * Second) Codec.one_subscriber
    = match Codec.Marshal out with
      | None => Ok Codec.one_subscriber
      | Some data =>
          Ok (store 0%nat
                (set_send Codec.alice (chan_push (send Codec.alice) data))
                Codec.one_subscriber)
      end.
Proof.
  destruct (C9_SendMessage_stamps Codec.Marshal 0%nat
              {| Type_ := "order_update"; Action := ""; Data := VNil; Error := "";
                 Timestamp := 42; ClientID := "someone else" |}
              (9 * Second) Codec.one_subscriber Codec.alice eq_refl)
    as (out & H1 & H2 & H3 & _ & _ & _ & H).
  exists out. split; [exact H1|]. split; [exact H2|]. split; [exact H3|].
  exact H.
Defined.

(** The registration of the first client ever accepted. *)
Lemma C8_register_welcome_witness :
  Run_register Codec.Marshal 0%nat (5 * Second) Codec.accepted =
    Ok {| clients := {[ 0%nat := true ]};
          mem := {[ 0%nat :=
            {| send :=
                 {| buf := ["system|connected|client_id=client_5000000000||5|client_5000000000"];
                    cap := 256; closed := false |};
               userID := "anonymous"; clientID := "client_5000000000";
               subscriptions := ∅ |} ]} |}.
Proof.
  apply (C8_register_welcome Codec.Marshal 0%nat (5 * Second) (5 * Second)
           Codec.accepted Codec.fresh_client
           "system|connected|client_id=client_5000000000||5|client_5000000000");
    vm_compute; reflexivity.
Defined.

(** C1, at the input where the code departs from it.  A connected client
    whose queue is full sends a ping: [SendMessage] takes its default
    branch and closes the send channel, and the client is still in the
    registry.  The registry invariant does not hold in the state reached. *)
Theorem C1_SendMessage_closes_registered_client :
  exists w c,
    Codec.run (Codec.stalled ++ [EvFrame 0%nat "ping" (9 * Second)]) NewHub = Ok w /\
    registered w 0%nat /\
    mem w !! 0%nat = Some c /\
    closed (send c) = true /\
    ~ registry_invariant w.
Proof.
  eexists. eexists. split; [vm_compute; reflexivity|].
  split; [by exists true|]. split; [reflexivity|]. split; [reflexivity|].
  intros Hinv. specialize (Hinv 0%nat _ eq_refl).
  assert (Hreg : registered
    (Codec.world_of (Codec.run (Codec.stalled ++ [EvFrame 0%nat "ping" (9 * Second)])
                       NewHub)) 0%nat) by (by exists true).
  apply Hinv in Hreg. vm_compute in Hreg. discriminate.
Qed.

(** C4, at the input where the code departs from it.  After the state of
    C1 (send channel closed by [SendMessage], client still registered) the
    next unregister of that client closes the channel a second time and
    the next publish sends on the closed channel; a frame handled after
    the hub has evicted the client sends on the closed channel as well.
    Each one is a run-time panic. *)
Theorem C4_hub_panics :
  Codec.run (Codec.stalled ++ [EvFrame 0%nat "ping" (9 * Second);
                               EvUnregister 0%nat]) NewHub
    = Panic close_of_closed_channel /\
  Codec.run (Codec.stalled ++ [EvFrame 0%nat "ping" (9 * Second);
                               EvBroadcast (Codec.note "tick")]) NewHub
    = Panic send_on_closed_channel /\
  Codec.run (Codec.stalled ++ [EvBroadcast (Codec.note "tick");
                               EvFrame 0%nat "ping" (9 * Second)]) NewHub
    = Panic send_on_closed_channel.
Proof. repeat split; vm_compute; reflexivity. Qed.

(** C2, at the input where the code departs from it.  In the state of C1
    one client is registered and its send channel has been closed by
    [SendMessage].  A broadcast processed in that state makes no enqueue
    attempt and evicts nobody: the send of the loop's [select] is a send on
    a closed channel, and the broadcast case of [Hub.Run] panics, whatever
    the message. *)
Theorem C2_broadcast_on_closed_channel :
  exists w,
    Codec.run (Codec.stalled ++ [EvFrame 0%nat "ping" (9 * Second)]) NewHub = Ok w /\
    size (clients w) = 1%nat /\
    registered_keys w = [0%nat] /\
    forall data, Run_broadcast data w = Panic send_on_closed_channel.
Proof.
  eexists. split; [vm_compute; reflexivity|].
  split; [vm_compute; reflexivity|]. split; [vm_compute; reflexivity|].
  intros data. vm_compute. reflexivity.
Qed.

Section Sessions.

Variable json_Marshal : Message -> option bytes.
Variable json_Unmarshal_Message : bytes -> option Message.
Variable json_Marshal_Value : Value -> option bytes.
Variable json_Unmarshal_Subscription : bytes -> option Subscription.

Local Abbreviation readPump_loop :=
  (readPump_loop json_Marshal json_Unmarshal_Message json_Marshal_Value
     json_Unmarshal_Subscription).
Local Abbreviation readPump :=
  (readPump json_Marshal json_Unmarshal_Message json_Marshal_Value
     json_Unmarshal_Subscription).
Local Abbreviation readPump_frame :=
  (readPump_frame json_Marshal json_Unmarshal_Message json_Marshal_Value
     json_Unmarshal_Subscription).

Lemma exit_status p w w' st :
  (w1 ← Run_unregister p w; Ok (w1, Exited)) = Ok (w', st) -> st = Exited.
Proof.
  intros H. apply bind_Ok_inv in H as (w1 & _ & H). by injection H as _ <-.
Qed.

(** Whether the read pump is still reading depends on the pongs alone. *)
Lemma readPump_loop_status frames : forall p deadline until w w' st,
  readPump_loop p deadline frames until w = Ok (w', st) ->
  st = if keeps_reading deadline frames until
       then Reading (deadline_after deadline frames) else Exited.
Proof using Type.
  unfold keeps_reading.
  induction frames as [|i frames IH]; intros p deadline until w w' st H; simpl in H.
  - simpl. rewrite Z.ltb_antisym in H.
    destruct (until <=? deadline); simpl in *.
    + by injection H as _ <-.
    + by apply exit_status in H.
  - cbn [pongs_in_time forallb deadline_after].
    rewrite Z.ltb_antisym in H.
    destruct (arrival i <=? deadline); simpl in H;
      [|by apply exit_status in H].
    destruct i as [now|now messageData|now]; simpl.
    + by apply IH in H.
    + destruct (maxMessageSize <? Z.of_nat (String.length messageData)); simpl.
      * rewrite andb_false_r. by apply exit_status in H.
      * apply bind_Ok_inv in H as (w1 & _ & H). by apply IH in H.
    + rewrite andb_false_r. by apply exit_status in H.
Qed.

Lemma readPump_loop_pongs ts : forall p deadline until w,
  readPump_loop p deadline (InPong <$> ts) until w =
    if keeps_reading deadline (InPong <$> ts) until
    then Ok (w, Reading (deadline_after deadline (InPong <$> ts)))
    else w1 ← Run_unregister p w; Ok (w1, Exited).
Proof using Type.
  unfold keeps_reading.
  induction ts as [|t ts IH]; intros p deadline until w; simpl.
  - rewrite Z.ltb_antisym. by destruct (until <=? deadline).
  - rewrite Z.ltb_antisym. destruct (t <=? deadline); simpl; [|done].
    apply IH.
Qed.

(** C3, as the code has it.  The read deadline is the start of the pump
    plus [pongWait] and is set again, to the arrival plus [pongWait], by
    pongs only.  Whenever the pump returns, it is still reading exactly
    when every frame was readable and arrived within [pongWait] of the
    latest pong before it (of the start, when there is none) and no more
    than that has passed since (its deadline is then the latest pong plus
    [pongWait]), and has left its loop otherwise, whatever frames other
    than pongs came in the window.  For a peer that only ever sends pongs
    the pump is given in full: while each pong comes within the window of
    the one before, the peer is not evicted and the state is untouched;
    once the window has lapsed the pump is at its exit, which is the
    unregistration of the client. *)
Theorem C3_deadline_renewed_by_pongs (p : ptr) (start until : Time) (w : World) :
  (forall frames w' st,
     readPump p start frames until w = Ok (w', st) ->
     st = if keeps_reading (start + pongWait) frames until
          then Reading (deadline_after (start + pongWait) frames) else Exited) /\
  (forall ts,
     readPump p start (InPong <$> ts) until w =
       if keeps_reading (start + pongWait) (InPong <$> ts) until
       then Ok (w, Reading (deadline_after (start + pongWait) (InPong <$> ts)))
       else w1 ← Run_unregister p w; Ok (w1, Exited)).
Proof using Type.
  split.
  - intros frames w' st. apply readPump_loop_status.
  - intros ts. apply readPump_loop_pongs.
Qed.

(** What [SendMessage] leaves alone, whichever branch it takes. *)
Lemma SendMessage_frame p message now w w' c :
  SendMessage json_Marshal p message now w = Ok w' ->
  mem w !! p = Some c ->
  clients w' = clients w /\
  subscriptions <$> mem w' !! p = Some (subscriptions c) /\
  forall q, q ≠ p -> mem w' !! q = mem w !! q.
Proof using Type.
  intros H Hm.
  rewrite (SendMessage_cases json_Marshal p message now w c Hm) in H.
  assert (Hstore : forall ch,
    clients (store p (set_send c ch) w) = clients w /\
    subscriptions <$> mem (store p (set_send c ch) w) !! p = Some (subscriptions c) /\
    forall q, q ≠ p -> mem (store p (set_send c ch) w) !! q = mem w !! q).
  { intros ch. simpl. rewrite lookup_insert_eq. repeat split.
    intros q Hq. by rewrite lookup_insert_ne. }
  destruct (json_Marshal _) as [data|].
  - destruct (closed (send c)); [discriminate|].
    destruct (chan_full (send c)); injection H as <-; apply Hstore.
  - injection H as <-. rewrite Hm. done.
Qed.

Lemma readPump_frame_bad p frame now w problem :
  bad_frame_error json_Unmarshal_Message frame = Some problem ->
  readPump_frame p frame now w =
    SendMessage json_Marshal p
      {| Type_ := "error"; Action := ""; Data := VNil; Error := problem;
         Timestamp := 0; ClientID := "" |} now w.
Proof using Type.
  unfold bad_frame_error, readPump_frame, handleMessage.
  destruct (json_Unmarshal_Message frame) as [message|].
  - repeat case_decide; intros [= <-]; reflexivity.
  - intros [= <-]. reflexivity.
Qed.

(** C6, as the code has it.  Handling a frame that does not decode, or
    whose kind is none of subscribe, unsubscribe and ping, never changes
    the client's subscription set, nor the registry or any other client.
    When the client's queue is open and has room, the client is sent an
    error envelope that names the problem, its channel stays open, and the
    read loop goes on with the next frame. *)
Theorem C6_bad_frame_answered (p : ptr) (frame : bytes) (now : Time) (w : World)
    (c : Client) (problem : string) :
  mem w !! p = Some c ->
  bad_frame_error json_Unmarshal_Message frame = Some problem ->
  (forall w',
     readPump_frame p frame now w = Ok w' ->
     clients w' = clients w /\
     subscriptions <$> mem w' !! p = Some (subscriptions c) /\
     forall q, q ≠ p -> mem w' !! q = mem w !! q) /\
  (forall data,
     closed (send c) = false ->
     chan_full (send c) = false ->
     json_Marshal {| Type_ := "error"; Action := ""; Data := VNil; Error := problem;
                     Timestamp := Unix now; ClientID := clientID c |} = Some data ->
     let w' := store p (set_send c (chan_push (send c) data)) w in
     readPump_frame p frame now w = Ok w' /\
     send_open w' p /\
     forall deadline frames until,
       now <= deadline ->
       Z.of_nat (String.length frame) <= maxMessageSize ->
       readPump_loop p deadline (InData now frame :: frames) until w =
       readPump_loop p deadline frames until w').
Proof using Type.
  intros Hm Hbad. rewrite (readPump_frame_bad p frame now w problem Hbad). split.
  - intros w' H. by apply (SendMessage_frame _ _ _ _ _ _ H).
  - intros data Hc Hf Hd w'.
    assert (Hsend : SendMessage json_Marshal p
              {| Type_ := "error"; Action := ""; Data := VNil; Error := problem;
                 Timestamp := 0; ClientID := "" |} now w = Ok w').
    { by apply SendMessage_ready. }
    split; [exact Hsend|]. split.
    + eexists. simpl. rewrite lookup_insert_eq. done.
    + intros deadline frames until Hnow Hlen. simpl.
      assert ((deadline <? now) = false) as -> by lia.
      assert ((maxMessageSize <? Z.of_nat (String.length frame)) = false) as -> by lia.
      rewrite (readPump_frame_bad p frame now w problem Hbad), Hsend.
      reflexivity.
Qed.

End Sessions.

(** C3 as stated fails.  A data frame received at second 50 leaves the
    deadline at second 60 (not 110), and a client that sends a frame every
    50 seconds, always within the 60 second window of the previous one, is
    evicted when its second frame arrives. *)
Lemma C3_data_frames_do_not_renew :
  frames_in_time 0 [InData (50 * Second) "ping"; InData (100 * Second) "ping"] = true /\
  status_of (Codec.readPump 0%nat 0 [InData (50 * Second) "ping"] (50 * Second)
               Codec.one_subscriber)
    = Some (Reading (60 * Second)) /\
  status_of (Codec.readPump 0%nat 0
               [InData (50 * Second) "ping"; InData (100 * Second) "ping"]
               (100 * Second) Codec.one_subscriber)
    = Some Exited.
Proof. repeat split; vm_compute; reflexivity. Qed.

(** Two pongs, 50 seconds apart: still reading at second 150, until 160. *)
Lemma C3_deadline_renewed_by_pongs_witness :
  Codec.readPump 0%nat 0 (InPong <$> [50 * Second; 100 * Second]) (150 * Second)
    Codec.one_subscriber
  = Ok (Codec.one_subscriber, Reading (160 * Second)).
Proof.
  unfold Codec.readPump.
  rewrite (proj2 (C3_deadline_renewed_by_pongs Codec.Marshal Codec.Unmarshal_Message
                    Codec.Marshal_Value Codec.Unmarshal_Subscription
                    0%nat 0 (150 * Second) Codec.one_subscriber)).
  reflexivity.
Defined.

(** C6 as stated fails.  The first client of [slow_and_fast] is connected
    and its queue is full; a frame that does not decode is not answered
    with an error envelope: [SendMessage] closes the client's channel. *)
Lemma C6_bad_frame_on_full_queue :
  ~ (forall p frame now w c,
       mem w !! p = Some c -> closed (send c) = false ->
       Codec.Unmarshal_Message frame = None ->
       exists w' c' data,
         Codec.readPump_frame p frame now w = Ok w' /\
         mem w' !! p = Some c' /\
         closed (send c') = false /\
         buf (send c') = (buf (send c) ++ [data])%list).
Proof.
  intros H.
  destruct (mem Codec.slow_and_fast !! 0%nat) as [c|] eqn:E;
    [|vm_compute in E; discriminate].
  assert (Hc : closed (send c) = false).
  { vm_compute in E. injection E as <-. reflexivity. }
  destruct (H 0%nat "!bad" (9 * Second) Codec.slow_and_fast c E Hc eq_refl)
    as (w' & c' & data & Hr & Hm & Hc' & _).
  vm_compute in Hr. injection Hr as <-.
  vm_compute in Hm. injection Hm as <-.
  discriminate Hc'.
Qed.

(** An undecodable frame from a client whose queue has room. *)
Lemma C6_bad_frame_answered_witness :
  Codec.readPump_frame 1%nat "!bad" (9 * Second) Codec.one_subscriber =
    Ok (store 1%nat
          (set_send Codec.bob
             (chan_push (send Codec.bob)
                "error||null|Invalid message format|9|client_6000000000"))
          Codec.one_subscriber).
Proof.
  apply (C6_bad_frame_answered Codec.Marshal Codec.Unmarshal_Message
           Codec.Marshal_Value Codec.Unmarshal_Subscription
           1%nat "!bad" (9 * Second) Codec.one_subscriber Codec.bob
           "Invalid message format");
    vm_compute; reflexivity.
Defined.


Section Subscriptions.

Variable json_Marshal : Message -> option bytes.
Variable json_Unmarshal_Message : bytes -> option Message.
Variable json_Marshal_Value : Value -> option bytes.
Variable json_Unmarshal_Subscription : bytes -> option Subscription.

Local Abbreviation step :=
  (step json_Marshal json_Unmarshal_Message json_Marshal_Value
     json_Unmarshal_Subscription).
Local Abbreviation run :=
  (run json_Marshal json_Unmarshal_Message json_Marshal_Value
     json_Unmarshal_Subscription).
Local Abbreviation handleSubscription :=
  (handleSubscription json_Marshal json_Marshal_Value json_Unmarshal_Subscription).





End Subscriptions.



(** ** The registry invariant on the hub's own paths *)

Lemma new_ptr_fresh w : mem w !! new_ptr w = None.
Proof. unfold new_ptr. apply not_elem_of_dom. apply is_fresh. Qed.

Lemma select_loop_invariant sel data w w' log :
  registry_invariant w ->
  range_clients (select_body sel data) (registered_keys w) w = Ok (w', log) ->
  registry_invariant w'.
Proof.
  intros Hinv Hr.
  destruct (range_clients_char _ _ _ _ _ _ (registered_keys_NoDup w) Hr)
    as (_ & Hout & Hin).
  intros q c' Hq. unfold registered.
  destruct (decide (q ∈ registered_keys w)) as [Hk|Hk].
  - destruct (Hin q Hk) as (c & Hm & Hc & Hn & Hcl).
    rewrite Hn in Hq. injection Hq as <-. rewrite Hcl.
    apply elem_of_registered_keys in Hk.
    unfold stays, client_after.
    destruct (sel c) eqn:Hs; simpl.
    + destruct (chan_full (send c)); simpl.
      * split; [intros [? ?]; done|done].
      * done.
    + by apply Hinv.
  - destruct (Hout q Hk) as [Hn ->]. rewrite Hn in Hq. by apply Hinv.
Qed.

Lemma select_loop_registry_open sel data w w' log :
  registry_open w ->
  range_clients (select_body sel data) (registered_keys w) w = Ok (w', log) ->
  registry_open w'.
Proof.
  intros Hopen Hr.
  destruct (range_clients_char _ _ _ _ _ _ (registered_keys_NoDup w) Hr)
    as (_ & Hout & Hin).
  intros q Hq. unfold registered, send_open in *.
  destruct (decide (q ∈ registered_keys w)) as [Hk|Hk].
  - destruct (Hin q Hk) as (c & Hm & Hc & Hn & Hcl).
    rewrite Hcl in Hq. exists (client_after sel data c). split; [done|].
    apply elem_of_registered_keys in Hk.
    destruct (Hopen q Hk) as (c0 & Hm0 & Hc0).
    assert (c0 = c) as -> by congruence.
    unfold stays, client_after in *.
    destruct (sel c); simpl in *; [|done].
    destruct (chan_full (send c)); simpl in *; [|done].
    by destruct Hq.
  - destruct (Hout q Hk) as [Hn Hcl]. rewrite Hcl in Hq.
    exfalso. apply Hk. by apply elem_of_registered_keys.
Qed.

(** The order in which a fan-out loop visits the registry does not
    matter: it returns for one order exactly when it returns for any
    other, with the same state and the same attempts. *)
Lemma range_clients_order sel data keys1 keys2 w :
  NoDup keys1 -> keys1 ≡ₚ keys2 ->
  match range_clients (select_body sel data) keys1 w,
        range_clients (select_body sel data) keys2 w with
  | Ok (w1, log1), Ok (w2, log2) => w1 = w2 /\ log1 ≡ₚ log2
  | Panic _, Panic _ => True
  | _, _ => False
  end.
Proof.
  intros Hnd1 Hperm.
  assert (Hnd2 : NoDup keys2) by (by rewrite <- Hperm).
  assert (Hsame : forall keys keys' r,
            NoDup keys -> NoDup keys' -> keys ≡ₚ keys' ->
            range_clients (select_body sel data) keys w = Ok r ->
            exists r', range_clients (select_body sel data) keys' w = Ok r').
  { intros keys keys' [w1 log1] Hn Hn' Hp Hr.
    destruct (range_clients_char _ _ _ _ _ _ Hn Hr) as (_ & _ & Hin).
    apply range_clients_total; [done|].
    intros q Hq. rewrite <- Hp in Hq.
    destruct (Hin q Hq) as (c & Hm & Hc & _). eauto. }
  destruct (range_clients (select_body sel data) keys1 w) as [[w1 log1]|] eqn:H1;
    destruct (range_clients (select_body sel data) keys2 w) as [[w2 log2]|] eqn:H2.
  - destruct (range_clients_char _ _ _ _ _ _ Hnd1 H1) as (Hl1 & Hout1 & Hin1).
    destruct (range_clients_char _ _ _ _ _ _ Hnd2 H2) as (Hl2 & Hout2 & Hin2).
    split.
    + apply World_eq; apply map_eq; intros q;
        (destruct (decide (q ∈ keys1)) as [Hk|Hk];
         [ destruct (Hin1 q Hk) as (c & Hm & _ & Hn1 & Hc1);
           rewrite Hperm in Hk;
           destruct (Hin2 q Hk) as (c' & Hm' & _ & Hn2 & Hc2);
           assert (c' = c) as -> by congruence; congruence
         | destruct (Hout1 q Hk) as [Hn1 Hc1];
           rewrite Hperm in Hk;
           destruct (Hout2 q Hk) as [Hn2 Hc2]; congruence ]).
    + rewrite Hl1, Hl2. unfold attempts_of.
      rewrite !flat_map_concat_map. by rewrite Hperm.
  - destruct (Hsame keys1 keys2 _ Hnd1 Hnd2 Hperm H1) as [r Hr]. congruence.
  - destruct (Hsame keys2 keys1 _ Hnd2 Hnd1 (symmetry Hperm) H2) as [r Hr].
    congruence.
  - exact I.
Qed.

Section Invariant.

Variable json_Marshal : Message -> option bytes.
Variable json_Unmarshal_Message : bytes -> option Message.
Variable json_Marshal_Value : Value -> option bytes.
Variable json_Unmarshal_Subscription : bytes -> option Subscription.

Local Abbreviation step :=
  (step json_Marshal json_Unmarshal_Message json_Marshal_Value
     json_Unmarshal_Subscription).
Local Abbreviation run :=
  (run json_Marshal json_Unmarshal_Message json_Marshal_Value
     json_Unmarshal_Subscription).

Lemma Run_unregister_invariant p w w' :
  registry_invariant w -> Run_unregister p w = Ok w' -> registry_invariant w'.
Proof using Type.
  intros Hinv H. unfold Run_unregister in H.
  destruct (clients w !! p) as [b|] eqn:Hb; [|by injection H as <-].
  apply bind_Ok_inv in H as (c & Hl & H). apply load_Ok in Hl. simpl in Hl.
  apply bind_Ok_inv in H as (ch & Hch & H). injection H as <-.
  unfold chan_close in Hch. destruct (closed (send c)); [discriminate|].
  injection Hch as <-.
  intros q c' Hq. unfold registered. simpl in *.
  destruct (decide (q = p)) as [->|Hne].
  - rewrite lookup_insert_eq in Hq. injection Hq as <-.
    rewrite lookup_delete_eq. simpl. split; [intros [? ?]; done|done].
  - rewrite lookup_insert_ne in Hq by done. rewrite lookup_delete_ne by done.
    by apply Hinv.
Qed.

Lemma WebSocketHandler_invariant user_id now w w' p :
  registry_invariant w ->
  WebSocketHandler json_Marshal user_id now w = Ok (w', p) ->
  registry_invariant w'.
Proof using Type.
  intros Hinv H. unfold WebSocketHandler in H.
  apply bind_Ok_inv in H as (w1 & H & Hw). injection Hw as <- <-.
  unfold Run_register, load in H. simpl in H.
  rewrite lookup_insert_eq in H. simpl in H.
  erewrite SendMessage_cases in H by (simpl; apply lookup_insert_eq).
  simpl in H.
  assert (Hold : forall q c, q ≠ new_ptr w -> mem w !! q = Some c ->
            (is_Some (<[new_ptr w := true]> (clients w) !! q) <->
             closed (send c) = false)).
  { intros q c Hne Hq. rewrite lookup_insert_ne by done. by apply Hinv. }
  destruct (json_Marshal _) as [data|]; injection H as <-;
    intros q c Hq; unfold registered; simpl in *.
  - destruct (decide (q = new_ptr w)) as [->|Hne].
    + rewrite lookup_insert_eq in Hq. injection Hq as <-.
      rewrite lookup_insert_eq. simpl. split; [done|eauto].
    + rewrite !lookup_insert_ne in Hq by done. by apply Hold.
  - destruct (decide (q = new_ptr w)) as [->|Hne].
    + rewrite lookup_insert_eq in Hq. injection Hq as <-.
      rewrite lookup_insert_eq. simpl. split; [done|eauto].
    + rewrite lookup_insert_ne in Hq by done. by apply Hold.
Qed.

(** A turn of the write pump only takes from the front of the queue. *)
Lemma writePump_recv_Ok_inv p conn w w' out :
  writePump_recv p conn w = Ok (w', out) ->
  exists c, mem w !! p = Some c /\
    (w' = w \/
     exists taken,
       w' = store p (set_send c {| buf := drop taken (buf (send c));
                                   cap := cap (send c);
                                   closed := closed (send c) |}) w).
Proof using Type.
  intros H. unfold writePump_recv in H.
  apply bind_Ok_inv in H as (c & Hl & H). apply load_Ok in Hl.
  exists c. split; [done|].
  destruct (buf (send c)) as [|b bs] eqn:Hb.
  - left. destruct (closed (send c)); by injection H as <- _.
  - right. destruct conn; injection H as <- _.
    + exists (S (length bs)). simpl. by rewrite drop_all.
    + by exists 1%nat.
    + exists (S (length bs)). simpl. by rewrite drop_all.
Qed.

Lemma writePump_recv_invariant p conn w w' out :
  registry_invariant w -> writePump_recv p conn w = Ok (w', out) ->
  registry_invariant w'.
Proof using Type.
  intros Hinv H.
  apply writePump_recv_Ok_inv in H as (c & Hm & [->|[k ->]]); [done|].
  intros q c' Hq. unfold registered. simpl in *.
  destruct (decide (q = p)) as [->|Hne].
  - rewrite lookup_insert_eq in Hq. injection Hq as <-. simpl.
    by apply Hinv.
  - rewrite lookup_insert_ne in Hq by done. by apply Hinv.
Qed.

(** Connecting, unregistering, publishing and draining a queue all keep
    the registry invariant: on these paths a channel is closed exactly
    when its client leaves the registry. *)
Lemma hub_event_invariant e w w' :
  is_hub_event e = true ->
  registry_invariant w -> step e w = Ok w' -> registry_invariant w'.
Proof using Type.
  intros He Hinv H. destruct e as [user_id now|p|message|t message| |p conn];
    try discriminate; simpl in H.
  - apply bind_Ok_inv in H as ([w1 p] & Hr & H). injection H as <-.
    by apply (WebSocketHandler_invariant user_id now w w1 p).
  - by apply (Run_unregister_invariant p w).
  - apply bind_Ok_inv in H as ([w1 log] & Hr & H). injection H as <-.
    unfold Broadcast in Hr. destruct (json_Marshal message) as [data|].
    + rewrite Run_broadcast_select in Hr.
      by apply (select_loop_invariant (fun _ => true) data w w1 log).
    + by injection Hr as <- _.
  - apply bind_Ok_inv in H as ([w1 log] & Hr & H). injection H as <-.
    unfold BroadcastToSubscribers in Hr. destruct (json_Marshal message) as [data|].
    + by apply (select_loop_invariant (subscribed t) data w w1 log).
    + by injection Hr as <- _.
  - apply bind_Ok_inv in H as ([w1 out] & Hr & H). injection H as <-.
    by apply (writePump_recv_invariant p conn w w1 out).
Qed.

Lemma hub_run_invariant es : forall w w',
  Forall (fun e => is_hub_event e = true) es ->
  registry_invariant w -> run es w = Ok w' -> registry_invariant w'.
Proof using Type.
  induction es as [|e es IH]; intros w w' Hes Hinv H; simpl in H.
  - by injection H as <-.
  - apply bind_Ok_inv in H as (w1 & H1 & H).
    apply Forall_cons in Hes as [He Hes].
    apply (IH w1 w' Hes); [|done].
    by apply (hub_event_invariant e w w1).
Qed.

Lemma hub_event_registry_open e w w' :
  is_hub_event e = true ->
  registry_open w -> step e w = Ok w' -> registry_open w'.
Proof using Type.
  intros He Hopen H. destruct e as [user_id now|p|message|t message| |p conn];
    try discriminate; simpl in H.
  - apply bind_Ok_inv in H as ([w1 p] & Hr & H). injection H as <-.
    unfold WebSocketHandler in Hr.
    apply bind_Ok_inv in Hr as (w2 & H & Hw). injection Hw as <- <-.
    unfold Run_register, load in H. simpl in H.
    rewrite lookup_insert_eq in H. simpl in H.
    erewrite SendMessage_cases in H by (simpl; apply lookup_insert_eq).
    simpl in H.
    assert (Hold : forall q, q ≠ new_ptr w ->
              is_Some (<[new_ptr w := true]> (clients w) !! q) -> send_open w q).
    { intros q Hne Hq. rewrite lookup_insert_ne in Hq by done. by apply Hopen. }
    destruct (json_Marshal _) as [data|]; injection H as <-;
      intros q Hq; unfold registered, send_open in *; simpl in *;
      (destruct (decide (q = new_ptr w)) as [->|Hne];
       [ rewrite lookup_insert_eq; eauto
       | rewrite ?lookup_insert_ne by done; by apply Hold ]).
  - unfold Run_unregister in H.
    destruct (clients w !! p) as [b|] eqn:Hb; [|by injection H as <-].
    apply bind_Ok_inv in H as (c & Hl & H).
    apply bind_Ok_inv in H as (ch & Hch & H). injection H as <-.
    intros q Hq. unfold registered, send_open in *. simpl in *.
    destruct (decide (q = p)) as [->|Hne].
    + rewrite lookup_delete_eq in Hq. by destruct Hq.
    + rewrite lookup_delete_ne in Hq by done.
      rewrite lookup_insert_ne by done. by apply Hopen.
  - apply bind_Ok_inv in H as ([w1 log] & Hr & H). injection H as <-.
    unfold Broadcast in Hr. destruct (json_Marshal message) as [data|].
    + rewrite Run_broadcast_select in Hr.
      by apply (select_loop_registry_open (fun _ => true) data w w1 log).
    + by injection Hr as <- _.
  - apply bind_Ok_inv in H as ([w1 log] & Hr & H). injection H as <-.
    unfold BroadcastToSubscribers in Hr. destruct (json_Marshal message) as [data|].
    + by apply (select_loop_registry_open (subscribed t) data w w1 log).
    + by injection Hr as <- _.
  - apply bind_Ok_inv in H as ([w1 out] & Hr & H). injection H as <-.
    apply writePump_recv_Ok_inv in Hr as (c & Hl & [->|[k ->]]); [done|].
    intros q Hq.
    destruct (Hopen q Hq) as (c' & Hm & Hc).
    unfold send_open. simpl.
    destruct (decide (q = p)) as [->|Hne].
    + rewrite lookup_insert_eq. eexists. split; [done|]. simpl. congruence.
    + rewrite lookup_insert_ne by done. eauto.
Qed.

(** Without a read pump calling [SendMessage], every state the system
    reaches has the registry invariant and open queues for all
    registered clients. *)
Lemma hub_run_registry_open es : forall w w',
  Forall (fun e => is_hub_event e = true) es ->
  registry_open w -> run es w = Ok w' -> registry_open w'.
Proof using Type.
  induction es as [|e es IH]; intros w w' Hes Hopen H; simpl in H.
  - by injection H as <-.
  - apply bind_Ok_inv in H as (w1 & H1 & H).
    apply Forall_cons in Hes as [He Hes].
    apply (IH w1 w' Hes); [|done].
    by apply (hub_event_registry_open e w w1).
Qed.

End Invariant.

Lemma NewHub_invariant : registry_invariant NewHub.
Proof. intros p c H. simpl in H. by rewrite lookup_empty in H. Qed.

Lemma NewHub_registry_open : registry_open NewHub.
Proof. intros p [b H]. simpl in H. by rewrite lookup_empty in H. Qed.

(** ** What every step keeps *)

Lemma client_step_refl c : client_step c c.
Proof.
  split; [done|]. split; [done|]. split; [done|]. split; [|done].
  intros H. split; [done|]. by exists 0%nat.
Qed.

Lemma client_step_trans c1 c2 c3 :
  client_step c1 c2 -> client_step c2 c3 -> client_step c1 c3.
Proof.
  intros (Hi & Hu & Hc & Hcl & Hb) (Hi' & Hu' & Hc' & Hcl' & Hb').
  split; [congruence|]. split; [congruence|]. split; [congruence|].
  split; [|auto].
  intros Hclosed. destruct (Hcl Hclosed) as [H2 [k E]].
  destruct (Hcl' H2) as [H3 [k' E']]. split; [done|].
  exists (k + k')%nat. by rewrite E', E, drop_drop.
Qed.

Lemma client_step_shut c :
  closed (send c) = false -> client_step c (set_send c (chan_shut (send c))).
Proof.
  intros H. split; [done|]. split; [done|]. split; [done|].
  split; [congruence|]. simpl. done.
Qed.

Lemma client_step_push c data :
  closed (send c) = false -> chan_full (send c) = false ->
  client_step c (set_send c (chan_push (send c) data)).
Proof.
  intros H Hf. split; [done|]. split; [done|]. split; [done|].
  split; [congruence|]. simpl.
  intros _. unfold chan_full in Hf. rewrite length_app. simpl.
  apply negb_false_iff, Nat.ltb_lt in Hf. lia.
Qed.

Lemma client_step_subscriptions c s c' :
  client_step (set_subscriptions c s) c' -> client_step c c'.
Proof. intros H. exact H. Qed.

Lemma world_step_refl w : world_step w w.
Proof. intros p c H. exists c. split; [done|apply client_step_refl]. Qed.

Lemma world_step_trans w1 w2 w3 :
  world_step w1 w2 -> world_step w2 w3 -> world_step w1 w3.
Proof.
  intros H12 H23 p c Hm. destruct (H12 p c Hm) as (c2 & Hm2 & Hs).
  destruct (H23 p c2 Hm2) as (c3 & Hm3 & Hs'). exists c3. split; [done|].
  by apply (client_step_trans c c2 c3).
Qed.

Lemma world_step_store p c c' w :
  mem w !! p = Some c -> client_step c c' -> world_step w (store p c' w).
Proof.
  intros Hm Hs q cq Hq. simpl. destruct (decide (q = p)) as [->|Hne].
  - rewrite lookup_insert_eq. exists c'. split; [done|]. congruence.
  - rewrite lookup_insert_ne by done. exists cq. split; [done|].
    apply client_step_refl.
Qed.

Lemma world_step_clients w m : world_step w (set_clients w m).
Proof. intros p c H. exists c. split; [done|apply client_step_refl]. Qed.

Lemma select_loop_world_step sel data keys w w' log :
  NoDup keys ->
  range_clients (select_body sel data) keys w = Ok (w', log) ->
  world_step w w'.
Proof.
  intros Hnd Hr.
  destruct (range_clients_char _ _ _ _ _ _ Hnd Hr) as (_ & Hout & Hin).
  intros q c Hq. destruct (decide (q ∈ keys)) as [Hk|Hk].
  - destruct (Hin q Hk) as (c0 & Hm & Hc & Hn & _).
    assert (c0 = c) as -> by congruence.
    exists (client_after sel data c). split; [done|].
    unfold client_after. destruct (sel c); [|apply client_step_refl].
    specialize (Hc eq_refl).
    destruct (chan_full (send c)) eqn:Hf.
    + by apply client_step_shut.
    + by apply client_step_push.
  - destruct (Hout q Hk) as [Hn _]. exists c. split; [congruence|].
    apply client_step_refl.
Qed.

Section Steps.

Variable json_Marshal : Message -> option bytes.
Variable json_Unmarshal_Message : bytes -> option Message.
Variable json_Marshal_Value : Value -> option bytes.
Variable json_Unmarshal_Subscription : bytes -> option Subscription.

Local Abbreviation step :=
  (step json_Marshal json_Unmarshal_Message json_Marshal_Value
     json_Unmarshal_Subscription).
Local Abbreviation run :=
  (run json_Marshal json_Unmarshal_Message json_Marshal_Value
     json_Unmarshal_Subscription).
Local Abbreviation readPump_frame :=
  (readPump_frame json_Marshal json_Unmarshal_Message json_Marshal_Value
     json_Unmarshal_Subscription).
Local Abbreviation handleMessage :=
  (handleMessage json_Marshal json_Marshal_Value json_Unmarshal_Subscription).
Local Abbreviation handleSubscription :=
  (handleSubscription json_Marshal json_Marshal_Value json_Unmarshal_Subscription).
Local Abbreviation handleUnsubscription :=
  (handleUnsubscription json_Marshal json_Marshal_Value json_Unmarshal_Subscription).

(** The three ways [SendMessage] returns. *)
Lemma SendMessage_Ok_inv p message now w w' :
  SendMessage json_Marshal p message now w = Ok w' ->
  exists c, mem w !! p = Some c /\
    (w' = w \/
     closed (send c) = false /\
     (chan_full (send c) = true /\ w' = store p (set_send c (chan_shut (send c))) w \/
      chan_full (send c) = false /\
      exists data, w' = store p (set_send c (chan_push (send c) data)) w)).
Proof using Type.
  intros H.
  destruct (mem w !! p) as [c|] eqn:Hm.
  - exists c. split; [done|].
    rewrite (SendMessage_cases json_Marshal p message now w c Hm) in H.
    destruct (json_Marshal _) as [data|]; [|injection H as <-; by left].
    destruct (closed (send c)); [discriminate|]. right. split; [done|].
    destruct (chan_full (send c)); injection H as <-; [left|right]; eauto.
  - unfold SendMessage, load in H. rewrite Hm in H. discriminate.
Qed.

(** [SendMessage] touches the sender's channel and nothing else. *)
Lemma SendMessage_local p message now w w' :
  SendMessage json_Marshal p message now w = Ok w' ->
  exists c c', mem w !! p = Some c /\ mem w' !! p = Some c' /\
    subscriptions c' = subscriptions c /\ client_step c c' /\
    clients w' = clients w /\
    forall q, q ≠ p -> mem w' !! q = mem w !! q.
Proof using Type.
  intros H. apply SendMessage_Ok_inv in H as (c & Hm & H). exists c.
  assert (Hstore : forall ch, client_step c (set_send c ch) ->
    exists c', mem (store p (set_send c ch) w) !! p = Some c' /\
      subscriptions c' = subscriptions c /\ client_step c c' /\
      clients (store p (set_send c ch) w) = clients w /\
      forall q, q ≠ p -> mem (store p (set_send c ch) w) !! q = mem w !! q).
  { intros ch Hs. exists (set_send c ch). simpl. rewrite lookup_insert_eq.
    split; [done|]. split; [done|]. split; [exact Hs|]. split; [done|].
    intros q Hq. by rewrite lookup_insert_ne. }
  destruct H as [->|(Hc & [(Hf & ->)|(Hf & data & ->)])].
  - exists c. split; [done|]. split; [done|]. split; [done|].
    split; [apply client_step_refl|]. done.
  - destruct (Hstore (chan_shut (send c))) as (c' & Hrest);
      [by apply client_step_shut|].
    exists c'. split; [done|]. exact Hrest.
  - destruct (Hstore (chan_push (send c) data)) as (c' & Hrest);
      [by apply client_step_push|].
    exists c'. split; [done|]. exact Hrest.
Qed.

Local Abbreviation decode_subscription :=
  (decode_subscription json_Marshal_Value json_Unmarshal_Subscription).

(** A subscribe request changes the sender and nobody else; the topic is
    added when the request parses. *)
Lemma handleSubscription_local p message now w w' :
  handleSubscription p message now w = Ok w' ->
  exists c c', mem w !! p = Some c /\ mem w' !! p = Some c' /\
    client_step c c' /\ clients w' = clients w /\
    (forall q, q ≠ p -> mem w' !! q = mem w !! q) /\
    subscriptions c' =
      match decode_subscription message with
      | Some s => <[Subscription_Type s := true]> (subscriptions c)
      | None => subscriptions c
      end.
Proof using Type.
  unfold handleSubscription, decode_subscription. intros H.
  destruct (json_Unmarshal_Subscription _) as [s|].
  - apply bind_Ok_inv in H as (c & Hl & H). apply load_Ok in Hl.
    apply SendMessage_local in H
      as (ca & c' & Hma & Hm' & Hsub & Hstep & Hcl & Hoth).
    simpl in Hma. rewrite lookup_insert_eq in Hma. injection Hma as <-.
    exists c, c'. split; [done|]. split; [done|]. split; [exact Hstep|].
    split; [done|]. split; [|done].
    intros q Hq. rewrite (Hoth q Hq). simpl. by rewrite lookup_insert_ne.
  - apply SendMessage_local in H
      as (c & c' & Hm & Hm' & Hsub & Hstep & Hcl & Hoth).
    exists c, c'. done.
Qed.

(** An unsubscribe request changes the sender and nobody else; the topic
    is removed when the request parses. *)
Lemma handleUnsubscription_local p message now w w' :
  handleUnsubscription p message now w = Ok w' ->
  exists c c', mem w !! p = Some c /\ mem w' !! p = Some c' /\
    client_step c c' /\ clients w' = clients w /\
    (forall q, q ≠ p -> mem w' !! q = mem w !! q) /\
    subscriptions c' =
      match decode_subscription message with
      | Some s => delete (Subscription_Type s) (subscriptions c)
      | None => subscriptions c
      end.
Proof using Type.
  unfold handleUnsubscription, decode_subscription. intros H.
  destruct (json_Unmarshal_Subscription _) as [s|].
  - apply bind_Ok_inv in H as (c & Hl & H). apply load_Ok in Hl.
    apply SendMessage_local in H
      as (ca & c' & Hma & Hm' & Hsub & Hstep & Hcl & Hoth).
    simpl in Hma. rewrite lookup_insert_eq in Hma. injection Hma as <-.
    exists c, c'. split; [done|]. split; [done|]. split; [exact Hstep|].
    split; [done|]. split; [|done].
    intros q Hq. rewrite (Hoth q Hq). simpl. by rewrite lookup_insert_ne.
  - apply SendMessage_local in H
      as (c & c' & Hm & Hm' & Hsub & Hstep & Hcl & Hoth).
    exists c, c'. done.
Qed.

Lemma readPump_frame_local p frame now w w' :
  readPump_frame p frame now w = Ok w' ->
  exists c c', mem w !! p = Some c /\ mem w' !! p = Some c' /\
    client_step c c' /\ clients w' = clients w /\
    (forall q, q ≠ p -> mem w' !! q = mem w !! q).
Proof using Type.
  assert (Hsend : forall m,
    SendMessage json_Marshal p m now w = Ok w' ->
    exists c c', mem w !! p = Some c /\ mem w' !! p = Some c' /\
      client_step c c' /\ clients w' = clients w /\
      (forall q, q ≠ p -> mem w' !! q = mem w !! q)).
  { intros m H. apply SendMessage_local in H
      as (c & c' & Hm & Hm' & Hsub & Hstep & Hcl & Hoth).
    exists c, c'. done. }
  unfold readPump_frame, handleMessage. intros H.
  destruct (json_Unmarshal_Message frame) as [message|]; [|by apply Hsend in H].
  repeat case_decide.
  - apply handleSubscription_local in H
      as (c & c' & Hm & Hm' & Hstep & Hcl & Hoth & _).
    exists c, c'. done.
  - apply handleUnsubscription_local in H
      as (c & c' & Hm & Hm' & Hstep & Hcl & Hoth & _).
    exists c, c'. done.
  - by apply Hsend in H.
  - by apply Hsend in H.
Qed.

Lemma local_world_step p c c' w w' :
  mem w !! p = Some c -> mem w' !! p = Some c' -> client_step c c' ->
  (forall q, q ≠ p -> mem w' !! q = mem w !! q) ->
  world_step w w'.
Proof using Type.
  intros Hm Hm' Hs Hoth q cq Hq. destruct (decide (q = p)) as [->|Hne].
  - exists c'. split; [done|]. congruence.
  - exists cq. split; [by rewrite Hoth|]. apply client_step_refl.
Qed.

(** Every event is a [world_step]. *)
Lemma step_world_step e w w' : step e w = Ok w' -> world_step w w'.
Proof using Type.
  intros H. destruct e as [user_id now|p|message|t message|p frame now|p conn];
    simpl in H.
  - apply bind_Ok_inv in H as ([w1 p] & Hr & H). injection H as <-.
    unfold WebSocketHandler in Hr.
    apply bind_Ok_inv in Hr as (w2 & H & Hw). injection Hw as <- <-.
    unfold Run_register in H. apply bind_Ok_inv in H as (c0 & _ & H).
    apply SendMessage_local in H
      as (c & c' & Hm & Hm' & _ & Hstep & _ & Hoth).
    intros q cq Hq.
    assert (Hne : q ≠ new_ptr w).
    { intros ->. rewrite new_ptr_fresh in Hq. discriminate. }
    exists cq. split; [|apply client_step_refl].
    rewrite (Hoth q Hne). simpl. by rewrite lookup_insert_ne.
  - unfold Run_unregister in H.
    destruct (clients w !! p) as [b|]; [|injection H as <-; apply world_step_refl].
    apply bind_Ok_inv in H as (c & Hl & H). apply load_Ok in Hl. simpl in Hl.
    apply bind_Ok_inv in H as (ch & Hch & H). injection H as <-.
    unfold chan_close in Hch. destruct (closed (send c)) eqn:Hc; [discriminate|].
    injection Hch as <-.
    apply (world_step_trans _ (set_clients w (delete p (clients w))));
      [apply world_step_clients|].
    apply (world_step_store p c); [done|]. by apply client_step_shut.
  - apply bind_Ok_inv in H as ([w1 log] & Hr & H). injection H as <-.
    unfold Broadcast in Hr. destruct (json_Marshal message) as [data|].
    + rewrite Run_broadcast_select in Hr.
      apply (select_loop_world_step _ _ _ _ _ _ (registered_keys_NoDup w) Hr).
    + injection Hr as <- _. apply world_step_refl.
  - apply bind_Ok_inv in H as ([w1 log] & Hr & H). injection H as <-.
    unfold BroadcastToSubscribers in Hr. destruct (json_Marshal message) as [data|].
    + apply (select_loop_world_step (subscribed t) _ _ _ _ _
               (registered_keys_NoDup w) Hr).
    + injection Hr as <- _. apply world_step_refl.
  - apply readPump_frame_local in H as (c & c' & Hm & Hm' & Hstep & _ & Hoth).
    by apply (local_world_step p c c').
  - apply bind_Ok_inv in H as ([w1 out] & Hr & H). injection H as <-.
    apply writePump_recv_Ok_inv in Hr as (c & Hl & [->|[k ->]]);
      [apply world_step_refl|].
    apply (world_step_store p c); [done|].
    split; [done|]. split; [done|]. split; [done|]. simpl.
    split; [intros Hc; split; [done|by exists k]|].
    rewrite length_drop. lia.
Qed.

Lemma run_world_step es : forall w w', run es w = Ok w' -> world_step w w'.
Proof using Type.
  induction es as [|e es IH]; intros w w' H; simpl in H.
  - injection H as <-. apply world_step_refl.
  - apply bind_Ok_inv in H as (w1 & H1 & H).
    apply (world_step_trans w w1 w'); [by apply (step_world_step e)|by apply IH].
Qed.

(** A client object appears in the store only by a connection, and then
    as the handler builds it, registered, with at most the welcome envelope
    queued. *)
Lemma step_new_client e w w' q c' :
  step e w = Ok w' -> mem w !! q = None -> mem w' !! q = Some c' ->
  q = new_ptr w /\ registered w' q /\
  cap (send c') = 256%nat /\ (length (buf (send c')) <= 1)%nat /\
  closed (send c') = false /\ subscriptions c' = ∅.
Proof using Type.
  intros H Hq Hq'. destruct e as [user_id now|p|message|t message|p frame now|p conn];
    simpl in H.
  - apply bind_Ok_inv in H as ([w1 p] & Hr & H). injection H as <-.
    unfold WebSocketHandler in Hr.
    apply bind_Ok_inv in Hr as (w2 & H & Hw). injection Hw as <- <-.
    unfold Run_register, load in H. simpl in H.
    rewrite lookup_insert_eq in H. simpl in H.
    erewrite SendMessage_cases in H by (simpl; apply lookup_insert_eq).
    simpl in H.
    assert (Hreg : is_Some (<[new_ptr w := true]> (clients w) !! new_ptr w)).
    { rewrite lookup_insert_eq. eauto. }
    destruct (decide (q = new_ptr w)) as [->|Hne].
    + split; [done|].
      destruct (json_Marshal _) as [data|]; injection H as <-; simpl in Hq';
        rewrite lookup_insert_eq in Hq'; injection Hq' as <-;
        (split; [exact Hreg|]); simpl;
        (split; [done|]); (split; [lia|]); done.
    + destruct (json_Marshal _) as [data|]; injection H as <-; simpl in Hq';
        rewrite !lookup_insert_ne in Hq' by done; congruence.
  - unfold Run_unregister in H.
    destruct (clients w !! p) as [b|]; [|injection H as <-; congruence].
    apply bind_Ok_inv in H as (c & Hl & H). apply load_Ok in Hl. simpl in Hl.
    apply bind_Ok_inv in H as (ch & Hch & H). injection H as <-. simpl in Hq'.
    destruct (decide (q = p)) as [->|Hne]; [congruence|].
    rewrite lookup_insert_ne in Hq' by done. congruence.
  - apply bind_Ok_inv in H as ([w1 log] & Hr & H). injection H as <-.
    unfold Broadcast in Hr.
    destruct (json_Marshal message) as [data|]; [|injection Hr as <- _; congruence].
    rewrite Run_broadcast_select in Hr.
    destruct (range_clients_char _ _ _ _ _ _ (registered_keys_NoDup w) Hr)
      as (_ & Hout & Hin).
    destruct (decide (q ∈ registered_keys w)) as [Hk|Hk].
    + destruct (Hin q Hk) as (c & Hm & _). congruence.
    + destruct (Hout q Hk) as [Hn _]. congruence.
  - apply bind_Ok_inv in H as ([w1 log] & Hr & H). injection H as <-.
    unfold BroadcastToSubscribers in Hr.
    destruct (json_Marshal message) as [data|]; [|injection Hr as <- _; congruence].
    destruct (range_clients_char (subscribed t) _ _ _ _ _
                (registered_keys_NoDup w) Hr) as (_ & Hout & Hin).
    destruct (decide (q ∈ registered_keys w)) as [Hk|Hk].
    + destruct (Hin q Hk) as (c & Hm & _). congruence.
    + destruct (Hout q Hk) as [Hn _]. congruence.
  - apply readPump_frame_local in H as (c & c0 & Hm & Hm' & _ & _ & Hoth).
    destruct (decide (q = p)) as [->|Hne]; [congruence|].
    rewrite (Hoth q Hne) in Hq'. congruence.
  - apply bind_Ok_inv in H as ([w1 out] & Hr & H). injection H as <-.
    apply writePump_recv_Ok_inv in Hr as (c & Hl & [->|[k ->]]); [congruence|].
    simpl in Hq'.
    destruct (decide (q = p)) as [->|Hne]; [congruence|].
    rewrite lookup_insert_ne in Hq' by done. congruence.
Qed.

(** No event puts a client that is in the store into the registry. *)
Lemma step_registry_shrinks e w w' q :
  step e w = Ok w' -> is_Some (mem w !! q) -> registered w' q -> registered w q.
Proof using Type.
  unfold registered.
  intros H [cq Hq] Hr. destruct e as [user_id now|p|message|t message|p frame now|p conn];
    simpl in H.
  - apply bind_Ok_inv in H as ([w1 p] & Hh & H). injection H as <-.
    unfold WebSocketHandler in Hh.
    apply bind_Ok_inv in Hh as (w2 & H & Hw). injection Hw as <- <-.
    unfold Run_register in H. apply bind_Ok_inv in H as (c0 & _ & H).
    apply SendMessage_local in H as (c & c' & _ & _ & _ & _ & Hcl & _).
    rewrite Hcl in Hr. simpl in Hr.
    assert (Hne : q ≠ new_ptr w).
    { intros ->. rewrite new_ptr_fresh in Hq. discriminate. }
    by rewrite lookup_insert_ne in Hr.
  - unfold Run_unregister in H.
    destruct (clients w !! p) as [b|] eqn:Hb; [|by injection H as <-].
    apply bind_Ok_inv in H as (c & Hl & H).
    apply bind_Ok_inv in H as (ch & Hch & H). injection H as <-. simpl in Hr.
    destruct (decide (q = p)) as [->|Hne].
    + rewrite lookup_delete_eq in Hr. by destruct Hr.
    + by rewrite lookup_delete_ne in Hr.
  - apply bind_Ok_inv in H as ([w1 log] & Hh & H). injection H as <-.
    unfold Broadcast in Hh.
    destruct (json_Marshal message) as [data|]; [|by injection Hh as <- _].
    rewrite Run_broadcast_select in Hh.
    destruct (range_clients_char _ _ _ _ _ _ (registered_keys_NoDup w) Hh)
      as (_ & Hout & Hin).
    destruct (decide (q ∈ registered_keys w)) as [Hk|Hk].
    + by apply elem_of_registered_keys in Hk.
    + destruct (Hout q Hk) as [_ Hc]. by rewrite Hc in Hr.
  - apply bind_Ok_inv in H as ([w1 log] & Hh & H). injection H as <-.
    unfold BroadcastToSubscribers in Hh.
    destruct (json_Marshal message) as [data|]; [|by injection Hh as <- _].
    destruct (range_clients_char (subscribed t) _ _ _ _ _
                (registered_keys_NoDup w) Hh) as (_ & Hout & Hin).
    destruct (decide (q ∈ registered_keys w)) as [Hk|Hk].
    + by apply elem_of_registered_keys in Hk.
    + destruct (Hout q Hk) as [_ Hc]. by rewrite Hc in Hr.
  - apply readPump_frame_local in H as (c & c0 & _ & _ & _ & Hcl & _).
    by rewrite Hcl in Hr.
  - apply bind_Ok_inv in H as ([w1 out] & Hh & H). injection H as <-.
    by apply writePump_recv_Ok_inv in Hh as (c & Hl & [->|[k ->]]).
Qed.

(** X1. A client object, once in the store, stays there with the same
    [clientID], the same [userID] and the same channel capacity through
    every sequence of events that returns. *)
Theorem client_identity_stable (es : list event) (w w' : World) (p : ptr)
    (c : Client) :
  run es w = Ok w' ->
  mem w !! p = Some c ->
  exists c', mem w' !! p = Some c' /\
    clientID c' = clientID c /\ userID c' = userID c /\
    cap (send c') = cap (send c).
Proof using Type.
  intros H Hm. destruct (run_world_step es w w' H p c Hm)
    as (c' & Hm' & Hi & Hu & Hc & _).
  exists c'. done.
Qed.

(** X2. A send channel that is closed is never open again, and nothing is
    ever added to it: whatever events follow, its pending items are what is
    left of the ones it had after the write pump has taken some number of
    them from the front (all of them with a writer, one when [NextWriter]
    fails). *)
Theorem closed_channel_stays_closed (es : list event) (w w' : World) (p : ptr)
    (c : Client) :
  run es w = Ok w' ->
  mem w !! p = Some c ->
  closed (send c) = true ->
  exists c', mem w' !! p = Some c' /\
    closed (send c') = true /\
    exists taken, buf (send c') = drop taken (buf (send c)).
Proof using Type.
  intros H Hm Hc. destruct (run_world_step es w w' H p c Hm)
    as (c' & Hm' & _ & _ & _ & Hcl & _).
  exists c'. split; [done|]. by apply Hcl.
Qed.

(** X3. A client that is in the store and not in the registry (it has
    been unregistered or evicted) is never in the registry again. *)
Theorem removed_client_never_registered_again (es : list event) :
  forall (w w' : World) (p : ptr),
  run es w = Ok w' ->
  is_Some (mem w !! p) ->
  ~ registered w p ->
  ~ registered w' p.
Proof using Type.
  induction es as [|e es IH]; intros w w' p H Hm Hn; simpl in H.
  - by injection H as <-.
  - apply bind_Ok_inv in H as (w1 & H1 & H).
    apply (IH w1 w' p H).
    + destruct Hm as [c Hm].
      destruct (step_world_step e w w1 H1 p c Hm) as (c' & Hm' & _). eauto.
    + intros Hr. apply Hn. by apply (step_registry_shrinks e w w1).
Qed.

(** X4. In every state reached from [NewHub], every client's send channel
    has capacity 256 and holds at most 256 envelopes. *)
Theorem queue_within_capacity (es : list event) (w : World) (p : ptr) (c : Client) :
  run es NewHub = Ok w ->
  mem w !! p = Some c ->
  cap (send c) = 256%nat /\ (length (buf (send c)) <= 256)%nat.
Proof using Type.
  assert (Hgen : forall es w0 w,
    (forall p c, mem w0 !! p = Some c ->
       cap (send c) = 256%nat /\ (length (buf (send c)) <= 256)%nat) ->
    run es w0 = Ok w ->
    forall p c, mem w !! p = Some c ->
       cap (send c) = 256%nat /\ (length (buf (send c)) <= 256)%nat).
  { clear. induction es as [|e es IH]; intros w0 w Hinv H; simpl in H.
    - by injection H as <-.
    - apply bind_Ok_inv in H as (w1 & H1 & H).
      apply (IH w1 w); [|done].
      intros q c' Hq'. destruct (mem w0 !! q) as [cq|] eqn:Hq.
      + destruct (step_world_step e w0 w1 H1 q cq Hq)
          as (c'' & Hm'' & _ & _ & Hcap & _ & Hlen).
        assert (c'' = c') as -> by congruence.
        destruct (Hinv q cq Hq) as [Hc Hl]. rewrite Hcap, Hc. split; [done|].
        rewrite Hcap, Hc in Hlen. by apply Hlen.
      + destruct (step_new_client e w0 w1 q c' H1 Hq Hq')
          as (_ & _ & Hc & Hl & _). split; [done|lia]. }
  intros H Hm. apply (fun Hnew => Hgen es NewHub w Hnew H p c Hm).
  intros q cq Hq. simpl in Hq. by rewrite lookup_empty in Hq.
Qed.

(** Connecting, unregistering and publishing return whenever every
    registered client has an open channel. *)
Lemma registry_step_total e w :
  is_registry_event e = true -> registry_open w -> exists w', step e w = Ok w'.
Proof using Type.
  intros He Hopen. destruct e as [user_id now|p|message|t message| |];
    try discriminate; simpl.
  - unfold WebSocketHandler, Run_register, load. simpl.
    rewrite lookup_insert_eq. simpl.
    erewrite SendMessage_cases by (simpl; apply lookup_insert_eq). simpl.
    destruct (json_Marshal _) as [data|]; simpl; eauto.
  - destruct (clients w !! p) as [b|] eqn:Hb.
    + destruct (Hopen p) as (c & Hm & Hc); [by exists b|].
      rewrite (Run_unregister_open p w c); [eauto|by exists b|done|done].
    + unfold Run_unregister. rewrite Hb. eauto.
  - unfold Broadcast. destruct (json_Marshal message) as [data|]; simpl; [|eauto].
    rewrite Run_broadcast_select.
    destruct (range_clients_total (fun _ => true) data (registered_keys w) w)
      as [r Hr]; [apply registered_keys_NoDup| |rewrite Hr; simpl; eauto].
    intros q Hq. by apply registry_open_keys.
  - unfold BroadcastToSubscribers.
    destruct (json_Marshal message) as [data|]; simpl; [|eauto].
    change (subscriber_body t data) with (select_body (subscribed t) data).
    destruct (range_clients_total (subscribed t) data (registered_keys w) w)
      as [r Hr]; [apply registered_keys_NoDup| |rewrite Hr; simpl; eauto].
    intros q Hq. by apply registry_open_keys.
Qed.

Lemma registry_event_is_hub_event e :
  is_registry_event e = true -> is_hub_event e = true.
Proof using Type. by destruct e. Qed.

Lemma registry_run_total es : forall w,
  Forall (fun e => is_registry_event e = true) es -> registry_open w ->
  exists w', run es w = Ok w'.
Proof using Type.
  induction es as [|e es IH]; intros w Hes Hopen; simpl; [eauto|].
  apply Forall_cons in Hes as [He Hes].
  destruct (registry_step_total e w He Hopen) as [w1 H1]. rewrite H1. simpl.
  apply IH; [done|].
  apply (hub_event_registry_open json_Marshal json_Unmarshal_Message
           json_Marshal_Value json_Unmarshal_Subscription e w w1);
    [by apply registry_event_is_hub_event|done|done].
Qed.

Lemma loop_event_is_registry_event e :
  is_loop_event e = true -> is_registry_event e = true.
Proof. by destruct e. Qed.

(** X5. The loop of [Hub.Run] never panics on its own: every sequence of
    connections, unregistrations and global publishes, in any order and
    for clients known or unknown, runs to the end from [NewHub], and in
    the state reached every registered client has an open channel. *)
Theorem registry_events_never_panic (es : list event) :
  Forall (fun e => is_loop_event e = true) es ->
  exists w, run es NewHub = Ok w /\ registry_open w.
Proof using Type.
  intros Hes.
  assert (Hreg : Forall (fun e => is_registry_event e = true) es).
  { eapply Forall_impl; [exact Hes|]. intros e. apply loop_event_is_registry_event. }
  destruct (registry_run_total es NewHub Hreg NewHub_registry_open) as [w Hw].
  exists w. split; [done|].
  apply (hub_run_registry_open json_Marshal json_Unmarshal_Message
           json_Marshal_Value json_Unmarshal_Subscription es NewHub w);
    [|apply NewHub_registry_open|done].
  eapply Forall_impl; [exact Hreg|]. intros e. apply registry_event_is_hub_event.
Qed.

(** A publish passes by a client that is not registered. *)
Lemma broadcast_skips_unregistered message w w' p :
  step (EvBroadcast message) w = Ok w' -> ~ registered w p ->
  mem w' !! p = mem w !! p /\ ~ registered w' p.
Proof using Type.
  simpl. intros H Hn.
  apply bind_Ok_inv in H as ([w1 log] & Hr & H). injection H as <-.
  unfold Broadcast in Hr.
  destruct (json_Marshal message) as [data|]; [|by injection Hr as <- _].
  rewrite Run_broadcast_select in Hr.
  destruct (range_clients_char _ _ _ _ _ _ (registered_keys_NoDup w) Hr)
    as (_ & Hout & _).
  assert (Hk : p ∉ registered_keys w) by (by rewrite elem_of_registered_keys).
  destruct (Hout p Hk) as [Hm Hc]. split; [done|].
  unfold registered. by rewrite Hc.
Qed.

Lemma broadcasts_skip_unregistered ms : forall w w' p,
  run (EvBroadcast <$> ms) w = Ok w' -> ~ registered w p ->
  mem w' !! p = mem w !! p /\ ~ registered w' p.
Proof using Type.
  induction ms as [|m ms IH]; intros w w' p H Hn; simpl in H.
  - by injection H as <-.
  - apply bind_Ok_inv in H as (w1 & H1 & H).
    destruct (broadcast_skips_unregistered m w w1 p H1 Hn) as [Hm Hn1].
    destruct (IH w1 w' p H Hn1) as [Hm' Hn']. split; [congruence|done].
Qed.

(** One publish, seen from a registered client. *)
Lemma broadcast_one message data w w' p c :
  json_Marshal message = Some data ->
  step (EvBroadcast message) w = Ok w' ->
  registered w p -> mem w !! p = Some c ->
  closed (send c) = false /\
  mem w' !! p = Some (client_after (fun _ => true) data c) /\
  (registered w' p <-> chan_full (send c) = false).
Proof using Type.
  simpl. intros Hd H Hreg Hm.
  apply bind_Ok_inv in H as ([w1 log] & Hr & H). injection H as <-.
  unfold Broadcast in Hr. rewrite Hd in Hr.
  rewrite Run_broadcast_select in Hr.
  destruct (range_clients_char _ _ _ _ _ _ (registered_keys_NoDup w) Hr)
    as (_ & _ & Hin).
  assert (Hk : p ∈ registered_keys w) by (by rewrite elem_of_registered_keys).
  destruct (Hin p Hk) as (c0 & Hm0 & Hc & Hn & Hcl).
  assert (c0 = c) as -> by congruence.
  split; [by apply Hc|]. split; [done|].
  unfold registered. rewrite Hcl. unfold stays. simpl.
  destruct (chan_full (send c)); simpl; [|done].
  split; [intros [? ?]; done|done].
Qed.

(** What a run of publishes does to one registered client when nothing
    drains its queue. *)
Lemma broadcasts_queue ms : forall datas w w' p c,
  Forall2 (fun m d => json_Marshal m = Some d) ms datas ->
  run (EvBroadcast <$> ms) w = Ok w' ->
  registered w p -> mem w !! p = Some c -> closed (send c) = false ->
  exists c', mem w' !! p = Some c' /\
    subscriptions c' = subscriptions c /\
    buf (send c') =
      (buf (send c) ++ take (cap (send c) - length (buf (send c))) datas)%list /\
    if (length ms <=? cap (send c) - length (buf (send c)))%nat
    then registered w' p /\ closed (send c') = false
    else ~ registered w' p /\ closed (send c') = true.
Proof using Type.
  induction ms as [|m ms IH]; intros datas w w' p c Hf H Hreg Hm Hc.
  - apply Forall2_nil_inv_l in Hf as ->. simpl in H. injection H as <-.
    exists c. rewrite take_nil, app_nil_r. done.
  - apply Forall2_cons_inv_l in Hf as (d & datas' & Hd & Hf & ->).
    simpl in H. apply bind_Ok_inv in H as (w1 & H1 & H).
    destruct (broadcast_one m d w w1 p c Hd H1 Hreg Hm) as (_ & Hm1 & Hreg1).
    unfold client_after in Hm1. simpl in Hm1.
    destruct (chan_full (send c)) eqn:Hfull.
    + assert (Hn1 : ~ registered w1 p) by (rewrite Hreg1; done).
      destruct (broadcasts_skip_unregistered ms w1 w' p H Hn1) as [Hm' Hn'].
      unfold chan_full in Hfull. apply negb_true_iff, Nat.ltb_ge in Hfull.
      replace (cap (send c) - length (buf (send c)))%nat with 0%nat by lia.
      exists (set_send c (chan_shut (send c))).
      split; [congruence|]. simpl. rewrite app_nil_r. done.
    + assert (Hr1 : registered w1 p) by (by apply Hreg1).
      destruct (IH datas' w1 w' p _ Hf H Hr1 Hm1 eq_refl)
        as (c' & Hm' & Hs' & Hb' & Hst').
      simpl in Hs', Hb', Hst'. rewrite length_app in Hb', Hst'. simpl in Hb', Hst'.
      unfold chan_full in Hfull. apply negb_false_iff, Nat.ltb_lt in Hfull.
      exists c'. split; [done|]. split; [done|].
      replace (cap (send c) - length (buf (send c)))%nat
        with (S (cap (send c) - (length (buf (send c)) + 1)))%nat by lia.
      split; [rewrite Hb'; simpl; by rewrite <- app_assoc|].
      simpl. exact Hst'.
Qed.

(** X6. With nothing draining its queue, a registered client that has
    room for [k] more envelopes gets the first [k] of any run of publishes
    appended in order; it is still registered after [k] or fewer publishes
    and is evicted, with the channel closed, by publish [k + 1]; its
    subscription set is not touched. *)
Theorem publishes_fill_then_evict (ms : list Message) (datas : list bytes)
    (w w' : World) (p : ptr) (c : Client) :
  Forall2 (fun m d => json_Marshal m = Some d) ms datas ->
  run (EvBroadcast <$> ms) w = Ok w' ->
  registered w p ->
  mem w !! p = Some c ->
  closed (send c) = false ->
  exists c', mem w' !! p = Some c' /\
    subscriptions c' = subscriptions c /\
    buf (send c') =
      (buf (send c) ++ take (cap (send c) - length (buf (send c))) datas)%list /\
    if (length ms <=? cap (send c) - length (buf (send c)))%nat
    then registered w' p /\ closed (send c') = false
    else ~ registered w' p /\ closed (send c') = true.
Proof using Type. apply broadcasts_queue. Qed.

(** X7. Per-client order: when a registered client has room for a run of
    publishes, the next turn of its write pump finds what was queued
    before followed by the published envelopes in the order of the
    publishes.  With a writer it takes all of them as one batch and leaves
    the queue empty; when [NextWriter] fails it takes the first of them
    only, writes nothing, and the rest stays queued in that order.  The
    channel stays open and the registry as it is. *)
Theorem publishes_written_in_order (ms : list Message) (datas : list bytes)
    (w w' : World) (p : ptr) (c : Client) (conn : transport) :
  Forall2 (fun m d => json_Marshal m = Some d) ms datas ->
  run (EvBroadcast <$> ms) w = Ok w' ->
  registered w p ->
  mem w !! p = Some c ->
  closed (send c) = false ->
  (length (buf (send c)) + length ms <= cap (send c))%nat ->
  (buf (send c) ++ datas)%list <> [] ->
  exists first rest w'',
    (buf (send c) ++ datas)%list = first :: rest /\
    writePump_recv p conn w' =
      Ok (w'', match conn with
               | WriterOk => Batch (first :: rest) true
               | CloseFails => Batch (first :: rest) false
               | NextWriterFails => Dropped first
               end) /\
    queue w'' p = match conn with NextWriterFails => rest | _ => [] end /\
    send_open w'' p /\ clients w'' = clients w'.
Proof using Type.
  intros Hf H Hreg Hm Hc Hroom Hne.
  destruct (broadcasts_queue ms datas w w' p c Hf H Hreg Hm Hc)
    as (c' & Hm' & _ & Hb & Hst).
  assert (Hlen : length datas = length ms) by (symmetry; by eapply Forall2_length).
  rewrite take_ge in Hb by lia.
  assert ((length ms <=? cap (send c) - length (buf (send c)))%nat = true) as Hle
    by (apply Nat.leb_le; lia).
  rewrite Hle in Hst. destruct Hst as [_ Hopen].
  unfold writePump_recv, load. rewrite Hm'. simpl. rewrite Hb.
  destruct (buf (send c) ++ datas)%list as [|b bs] eqn:E; [done|].
  exists b, bs. destruct conn; eexists; (split; [reflexivity|]);
    (split; [reflexivity|]); unfold queue, send_open; simpl;
    rewrite lookup_insert_eq; simpl; (split; [done|]); (split; [|done]);
    eexists; (split; [done|]); done.
Qed.

(** X8. Subscribe then unsubscribe: after a subscribe request and an
    unsubscribe request for the same topic the client's subscription set
    is its old one without the topic, whatever the filter lists said, and
    a publish to that topic makes no attempt on the client and leaves it
    as it is. *)
Theorem subscribe_unsubscribe_round_trip (p : ptr) (m1 m2 : Message)
    (s1 s2 : Subscription) (t1 t2 : Time) (w w1 w2 : World) (c : Client) :
  mem w !! p = Some c ->
  decode_subscription m1 = Some s1 ->
  decode_subscription m2 = Some s2 ->
  Subscription_Type s1 = Subscription_Type s2 ->
  handleSubscription p m1 t1 w = Ok w1 ->
  handleUnsubscription p m2 t2 w1 = Ok w2 ->
  exists c2, mem w2 !! p = Some c2 /\
    subscriptions c2 = delete (Subscription_Type s1) (subscriptions c) /\
    forall msg w3 log,
      BroadcastToSubscribers json_Marshal (Subscription_Type s1) msg w2 = Ok (w3, log) ->
      (p ∉ attempt_client <$> log) /\ mem w3 !! p = Some c2.
Proof using Type.
  intros Hm Hd1 Hd2 HT H1 H2.
  apply handleSubscription_local in H1 as (c0 & c1 & Hm0 & Hm1 & _ & _ & _ & Hs1).
  assert (c0 = c) as -> by congruence. rewrite Hd1 in Hs1.
  apply handleUnsubscription_local in H2 as (c1' & c2 & Hm1' & Hm2 & _ & _ & _ & Hs2).
  assert (c1' = c1) as -> by congruence. rewrite Hd2, Hs1, <- HT in Hs2.
  rewrite delete_insert_eq in Hs2.
  exists c2. split; [done|]. split; [done|].
  intros msg w3 log Hb. unfold BroadcastToSubscribers in Hb.
  destruct (json_Marshal msg) as [data|];
    [|injection Hb as <- <-; split; [apply not_elem_of_nil|done]].
  change (subscriber_body (Subscription_Type s1) data)
    with (select_body (subscribed (Subscription_Type s1)) data) in Hb.
  destruct (range_clients_char _ _ _ _ _ _ (registered_keys_NoDup w2) Hb)
    as (Hlog & Hout & Hin).
  assert (Hsel : subscribed (Subscription_Type s1) c2 = false).
  { unfold subscribed, index_bool. by rewrite Hs2, lookup_delete_eq. }
  split.
  - rewrite Hlog, elem_of_attempt_clients. intros (_ & c' & Hm' & Hs').
    assert (c' = c2) as -> by congruence. congruence.
  - destruct (decide (p ∈ registered_keys w2)) as [Hk|Hk].
    + destruct (Hin p Hk) as (c' & Hm' & _ & Hn & _).
      assert (c' = c2) as -> by congruence.
      unfold client_after in Hn. by rewrite Hsel in Hn.
    + destruct (Hout p Hk) as [Hn _]. congruence.
Qed.


(** X10. Handling an inbound frame is local to the sender: whatever the
    frame, the registry and every other client are as before and the
    sender keeps its identity. *)
Theorem frame_handling_is_local (p : ptr) (frame : bytes) (now : Time)
    (w w' : World) :
  readPump_frame p frame now w = Ok w' ->
  clients w' = clients w /\
  (forall q, q ≠ p -> mem w' !! q = mem w !! q) /\
  exists c c', mem w !! p = Some c /\ mem w' !! p = Some c' /\
    clientID c' = clientID c /\ userID c' = userID c.
Proof using Type.
  intros H. apply readPump_frame_local in H
    as (c & c' & Hm & Hm' & (Hi & Hu & _) & Hcl & Hoth).
  split; [done|]. split; [done|]. exists c, c'. done.
Qed.

Lemma SendMessage_ready_total p message now w c :
  (forall m, reply_data (Data m) -> is_Some (json_Marshal m)) ->
  reply_data (Data message) ->
  mem w !! p = Some c -> closed (send c) = false -> chan_full (send c) = false ->
  exists out data,
    json_Marshal out = Some data /\
    Type_ out = Type_ message /\ ClientID out = clientID c /\
    Timestamp out = Unix now /\
    SendMessage json_Marshal p message now w =
      Ok (store p (set_send c (chan_push (send c) data)) w).
Proof using Type.
  intros Henc Hrep Hm Hc Hf.
  destruct (Henc {| Type_ := Type_ message; Action := Action message;
                    Data := Data message; Error := Error message;
                    Timestamp := Unix now; ClientID := clientID c |} Hrep)
    as [data Hd].
  eexists _, data. split; [exact Hd|]. split; [done|]. split; [done|].
  split; [done|]. by apply SendMessage_ready.
Qed.

(** X11. Every frame is answered once: when the sender's queue is open
    and has room and the replies encode, handling any inbound frame
    returns, appends exactly one envelope to the sender's queue and leaves
    the channel open; the envelope carries the sender's identifier and the
    time of the reply, and it is a [pong] exactly when the frame decodes
    to a [ping].  (The replies carry no data or the echoed subscription;
    that these encode is what is asked of [json.Marshal].) *)
Theorem every_frame_answered_once (p : ptr) (frame : bytes) (now : Time)
    (w : World) (c : Client) :
  (forall m, reply_data (Data m) -> is_Some (json_Marshal m)) ->
  mem w !! p = Some c ->
  closed (send c) = false ->
  chan_full (send c) = false ->
  exists w' c' out reply,
    readPump_frame p frame now w = Ok w' /\
    mem w' !! p = Some c' /\
    json_Marshal out = Some reply /\
    buf (send c') = (buf (send c) ++ [reply])%list /\
    closed (send c') = false /\
    ClientID out = clientID c /\ Timestamp out = Unix now /\
    (Type_ out = "pong" <->
     exists message, json_Unmarshal_Message frame = Some message /\
                     Type_ message = "ping").
Proof using Type.
  intros Henc Hm Hc Hf.
  assert (Hsend : forall m (wa : World) (ca : Client),
    reply_data (Data m) ->
    mem wa !! p = Some ca -> send ca = send c -> clientID ca = clientID c ->
    (Type_ m = "pong" <->
     exists message, json_Unmarshal_Message frame = Some message /\
                     Type_ message = "ping") ->
    exists w' c' out reply,
      SendMessage json_Marshal p m now wa = Ok w' /\
      mem w' !! p = Some c' /\ json_Marshal out = Some reply /\
      buf (send c') = (buf (send c) ++ [reply])%list /\
      closed (send c') = false /\
      ClientID out = clientID c /\ Timestamp out = Unix now /\
      (Type_ out = "pong" <->
       exists message, json_Unmarshal_Message frame = Some message /\
                       Type_ message = "ping")).
  { intros m wa ca Hrep Hma Hsa Hida Hpong.
    destruct (SendMessage_ready_total p m now wa ca Henc Hrep Hma)
      as (out & data & Hd & Ht & Hi & Hts & Hs); [by rewrite Hsa|by rewrite Hsa|].
    eexists _, _, out, data. split; [exact Hs|]. simpl.
    rewrite lookup_insert_eq. split; [done|]. split; [done|]. simpl.
    rewrite Hsa. split; [done|]. split; [done|]. split; [congruence|].
    split; [done|]. by rewrite Ht. }
  unfold readPump_frame, handleMessage, handleSubscription, handleUnsubscription.
  destruct (json_Unmarshal_Message frame) as [message|].
  - assert (Hping : forall T : string, T ≠ "pong" ->
              (Type_ message = "ping" -> False) ->
              T = "pong" <->
              exists message0, Some message = Some message0 /\
                               Type_ message0 = "ping").
    { intros T HT Hn. split; [done|]. intros (m0 & [= <-] & Hp). done. }
    repeat case_decide.
    + unfold load. rewrite Hm. simpl.
      destruct (json_Unmarshal_Subscription _) as [s|].
      * eapply Hsend; [right; eauto|simpl; apply lookup_insert_eq|done|done|].
        simpl. apply Hping; [done|congruence].
      * eapply Hsend; [by left|exact Hm|done|done|].
        simpl. apply Hping; [done|congruence].
    + unfold load. rewrite Hm. simpl.
      destruct (json_Unmarshal_Subscription _) as [s|].
      * eapply Hsend; [right; eauto|simpl; apply lookup_insert_eq|done|done|].
        simpl. apply Hping; [done|congruence].
      * eapply Hsend; [by left|exact Hm|done|done|].
        simpl. apply Hping; [done|congruence].
    + eapply Hsend; [by left|exact Hm|done|done|]. simpl. split; [eauto|done].
    + eapply Hsend; [by left|exact Hm|done|done|].
      simpl. apply Hping; [done|congruence].
  - eapply Hsend; [by left|exact Hm|done|done|].
    simpl. split; [done|]. intros (m0 & [=] & _).
Qed.

(** X12. Accepting a connection never fails and never disturbs what is
    there: the new client gets an address no client had, is registered,
    has the identifier made from the clock, the user identifier of the
    request or [anonymous] when that is empty, no subscriptions and an
    open channel of capacity 256; every other client and registration is
    as before. *)
Theorem new_connection (user_id : string) (now : Time) (w : World) :
  exists w' c',
    WebSocketHandler json_Marshal user_id now w = Ok (w', new_ptr w) /\
    mem w !! new_ptr w = None /\
    mem w' !! new_ptr w = Some c' /\
    registered w' (new_ptr w) /\
    clientID c' = generateClientID now /\
    userID c' = (if decide (user_id = "") then "anonymous" else user_id) /\
    userID c' <> "" /\
    subscriptions c' = ∅ /\
    closed (send c') = false /\
    cap (send c') = 256%nat /\
    forall q, q ≠ new_ptr w ->
      mem w' !! q = mem w !! q /\ clients w' !! q = clients w !! q.
Proof using Type.
  unfold WebSocketHandler, Run_register, load. simpl.
  rewrite lookup_insert_eq. simpl.
  erewrite SendMessage_cases by (simpl; apply lookup_insert_eq). simpl.
  assert (Huser : (if decide (user_id = "") then "anonymous" else user_id) <> "").
  { case_decide; [discriminate|done]. }
  assert (Hreg : forall m : gmap ptr Client,
            registered {| clients := <[new_ptr w := true]> (clients w); mem := m |}
              (new_ptr w)).
  { intros m. unfold registered. simpl. rewrite lookup_insert_eq. eauto. }
  destruct (json_Marshal _) as [data|]; simpl.
  - eexists _, _. split; [reflexivity|]. split; [apply new_ptr_fresh|].
    simpl. rewrite lookup_insert_eq. split; [reflexivity|].
    split; [apply Hreg|]. simpl.
    split; [done|]. split; [done|]. split; [exact Huser|].
    split; [done|]. split; [done|]. split; [done|].
    intros q Hq. by rewrite !lookup_insert_ne.
  - eexists _, _. split; [reflexivity|]. split; [apply new_ptr_fresh|].
    simpl. rewrite lookup_insert_eq. split; [reflexivity|].
    split; [apply Hreg|]. simpl.
    split; [done|]. split; [done|]. split; [exact Huser|].
    split; [done|]. split; [done|]. split; [done|].
    intros q Hq. by rewrite !lookup_insert_ne.
Qed.

End Steps.

(** X13. Identifiers made from the clock are as distinct as the clock
    readings: two client identifiers are equal exactly when they were
    made at the same nanosecond, and likewise two request identifiers. *)
Theorem generated_ids_distinct (t1 t2 : Time) :
  (generateClientID t1 = generateClientID t2 <-> t1 = t2) /\
  (generateRequestID t1 = generateRequestID t2 <-> t1 = t2).
Proof.
  unfold generateClientID, generateRequestID. split; split.
  - intros H. apply (inj (String.app "client_")) in H. by apply (inj pretty) in H.
  - by intros ->.
  - intros H. by apply (inj pretty) in H.
  - by intros ->.
Qed.

(** ** The rate limiter *)

Lemma time_Sub_lt_Minute (t u : Time) : time_Sub t u < Minute <-> t - u < Minute.
Proof. unfold time_Sub, minDuration, maxDuration, Minute, Second. lia. Qed.

Lemma RateLimit_other limit ip now cl ip' :
  ip' ≠ ip -> fst (Middleware.RateLimit limit ip now cl) !! ip' = cl !! ip'.
Proof.
  intros Hne. unfold Middleware.RateLimit.
  destruct (cl !! ip) as [L|] eqn:E; simpl;
    destruct (_ <=? _); simpl; rewrite ?lookup_insert_ne by done; done.
Qed.

(** What the limiter keeps for the address of the request. *)
Lemma RateLimit_stored limit ip now cl :
  stored (fst (Middleware.RateLimit limit ip now cl)) ip =
    (if limit <=? Z.of_nat (length (recent now (stored cl ip)))
     then recent now (stored cl ip)
     else recent now (stored cl ip) ++ [now])%list /\
  snd (Middleware.RateLimit limit ip now cl) =
    negb (limit <=? Z.of_nat (length (recent now (stored cl ip)))).
Proof.
  assert (Hrec : forall L, filter (fun reqTime => time_Sub now reqTime < Minute) L
                           = recent now L).
  { intros L. apply list_filter_iff. intros u. apply time_Sub_lt_Minute. }
  unfold Middleware.RateLimit, stored.
  destruct (cl !! ip) as [L|] eqn:E; simpl.
  - rewrite lookup_insert_eq. simpl. rewrite Hrec.
    destruct (_ <=? _); simpl; rewrite lookup_insert_eq; done.
  - rewrite E. simpl. unfold recent. rewrite filter_nil. simpl.
    destruct (_ <=? _); simpl; rewrite ?lookup_insert_eq, ?E; done.
Qed.

Lemma recent_recent t now l : now <= t -> recent t (recent now l) = recent t l.
Proof.
  intros Hle. unfold recent. rewrite list_filter_filter.
  apply list_filter_iff. intros u. lia.
Qed.

Lemma length_filter_impl {A} (P Q : A -> Prop) `{!forall x, Decision (P x)}
    `{!forall x, Decision (Q x)} (l : list A) :
  (forall x, x ∈ l -> P x -> Q x) ->
  (length (filter P l) <= length (filter Q l))%nat.
Proof.
  induction l as [|x l IH]; intros Himp; [done|].
  rewrite !filter_cons.
  assert (IH' : (length (filter P l) <= length (filter Q l))%nat).
  { apply IH. intros y Hy. apply Himp. by right. }
  destruct (decide (P x)) as [HP|HP]; destruct (decide (Q x)) as [HQ|HQ];
    simpl; try lia.
  exfalso. apply HQ, Himp; [by left|done].
Qed.

(** The four statements of one invocation, taken with no other invocation
    in between, are the handler run from entry to answer. *)
Lemma RateLimit_steps limit ip now cl :
  let h := {| inv_clientIP := ip; inv_now := now; inv_stage := Entered |} in
  let r1 := RateLimit_step limit h cl in
  let r2 := RateLimit_step limit (fst r1) (snd r1) in
  let r3 := RateLimit_step limit (fst r2) (snd r2) in
  RateLimit_step limit (fst r3) (snd r3) =
    ({| inv_clientIP := ip; inv_now := now;
        inv_stage := Answered (snd (Middleware.RateLimit limit ip now cl)) |},
     fst (Middleware.RateLimit limit ip now cl)).
Proof.
  unfold RateLimit_step, Middleware.RateLimit, at_stage. simpl.
  destruct (cl !! ip) as [L|] eqn:E; simpl.
  - destruct (_ <=? _); reflexivity.
  - destruct (_ <=? _); reflexivity.
Qed.

Lemma serve_scheduled_at limit schedule before h rest cl :
  serve_scheduled limit (length before :: schedule) (before ++ h :: rest) cl =
  serve_scheduled limit schedule
    (before ++ fst (RateLimit_step limit h cl) :: rest)
    (snd (RateLimit_step limit h cl)).
Proof.
  simpl. rewrite list_lookup_middle by done.
  rewrite insert_app_r_alt by lia. by rewrite Nat.sub_diag.
Qed.

(** Invocations that take turns are the requests served one by one. *)
Lemma serve_scheduled_in_turn limit requests : forall before cl,
  serve_scheduled limit (in_turn (length before) (length requests))
    (before ++ enter requests) cl =
  ((before ++ answered requests (snd (serve limit requests cl)))%list,
   fst (serve limit requests cl)).
Proof.
  induction requests as [|[ip now] requests IH]; intros before cl; [done|].
  change (in_turn (length before) (length ((ip, now) :: requests)))
    with (length before :: length before :: length before :: length before
          :: in_turn (S (length before)) (length requests)).
  change (enter ((ip, now) :: requests))
    with ({| inv_clientIP := ip; inv_now := now; inv_stage := Entered |}
          :: enter requests).
  rewrite !serve_scheduled_at, RateLimit_steps.
  rewrite (cons_middle _ before), app_assoc.
  replace (S (length before)) with
    (length (before ++ [{| inv_clientIP := ip; inv_now := now;
                         inv_stage := Answered
                           (snd (Middleware.RateLimit limit ip now cl)) |}]))
    by (rewrite length_app; simpl; lia).
  rewrite IH. simpl. by rewrite <- app_assoc.
Qed.

Lemma handled_in_turn_serve limit requests :
  handled_in_turn limit requests =
    (answered requests (snd (serve limit requests ∅)),
     fst (serve limit requests ∅)).
Proof. apply (serve_scheduled_in_turn limit requests []). Qed.

Lemma let_through_answered limit ip requests : forall cl,
  let_through ip (answered requests (snd (serve limit requests cl))) =
  admitted limit ip requests cl.
Proof.
  induction requests as [|[ip' now] requests IH]; intros cl; [done|].
  simpl. unfold let_through in *. simpl. rewrite IH.
  destruct (decide (ip' = ip)); [|done].
  by destruct (snd (Middleware.RateLimit limit ip' now cl)).
Qed.

Lemma serve_length limit requests : forall cl,
  length (snd (serve limit requests cl)) = length requests.
Proof.
  induction requests as [|[ip now] requests IH]; intros cl; [done|].
  simpl. by rewrite IH.
Qed.

Lemma serve_app limit requests1 requests2 : forall cl,
  serve limit (requests1 ++ requests2) cl =
    (fst (serve limit requests2 (fst (serve limit requests1 cl))),
     (snd (serve limit requests1 cl)
      ++ snd (serve limit requests2 (fst (serve limit requests1 cl))))%list).
Proof.
  induction requests1 as [|[ip now] requests1 IH]; intros cl.
  - simpl. by destruct (serve limit requests2 cl).
  - simpl. by rewrite IH.
Qed.

(** Where invocations overlap the limit does not hold: two requests of
    one address under a limit of one, their statements alternating, both
    pass the limit check before either has recorded itself. *)
Lemma overlapping_invocations_pass_the_limit :
  serve_scheduled 1 [0; 1; 0; 1; 0; 1; 0; 1]%nat
    (enter [("10.0.0.1", 0); ("10.0.0.1", 1)]) ∅ =
  (answered [("10.0.0.1", 0); ("10.0.0.1", 1)] [true; true],
   {["10.0.0.1" := [0; 1]]}).
Proof. vm_compute. reflexivity. Qed.

(** The limiter's list for an address and the readings admitted so far
    agree on everything that can still count, and no minute has more than
    the limit; so it stays with the requests to come. *)
Lemma admitted_window limit ip requests : forall cl H lo,
  chronological_from lo requests ->
  (forall u, u ∈ H -> u <= lo) ->
  (forall t, lo <= t -> recent t (stored cl ip) = recent t H) ->
  (forall t, Z.of_nat (length (in_minute t H)) <= Z.max 0 limit) ->
  forall t,
    Z.of_nat (length (in_minute t (H ++ admitted limit ip requests cl)))
    <= Z.max 0 limit.
Proof.
  induction requests as [|[ip' now] requests IH]; intros cl H lo Hch Hpast Hrec Hcnt t.
  - simpl. rewrite app_nil_r. apply Hcnt.
  - destruct Hch as [Hlo Hch]. simpl in Hlo, Hch. simpl.
    rewrite app_assoc.
    apply (IH _ _ now Hch).
    + intros u Hu. apply elem_of_app in Hu as [Hu|Hu].
      * specialize (Hpast u Hu). lia.
      * destruct (decide (ip' = ip)); [|by apply elem_of_nil in Hu].
        destruct (snd _); [|by apply elem_of_nil in Hu].
        apply list_elem_of_singleton in Hu. lia.
    + intros t' Ht'. destruct (decide (ip' = ip)) as [->|Hne].
      * destruct (RateLimit_stored limit ip now cl) as [-> ->].
        assert (Hnow : recent now (stored cl ip) = recent now H) by (by apply Hrec).
        destruct (limit <=? _); simpl.
        -- rewrite app_nil_r, recent_recent by done. apply Hrec. lia.
        -- unfold recent at 1 3. rewrite !filter_app. f_equal.
           change (recent t' (recent now (stored cl ip)) = recent t' H).
           rewrite recent_recent by done. apply Hrec. lia.
      * rewrite app_nil_r. unfold stored. rewrite RateLimit_other by done.
        apply Hrec. lia.
    + intros t'. destruct (decide (ip' = ip)) as [->|Hne];
        [|rewrite app_nil_r; apply Hcnt].
      destruct (RateLimit_stored limit ip now cl) as [_ ->].
      destruct (limit <=? _) eqn:Hlim; simpl; [rewrite app_nil_r; apply Hcnt|].
      apply Z.leb_gt in Hlim.
      unfold in_minute. rewrite filter_app, length_app.
      destruct (decide (t' - Minute < now /\ now <= t')) as [Hin|Hout].
      * rewrite (filter_singleton_True _ now []) by done. simpl.
        assert (Hle : (length (filter (fun u => (t' - Minute < u /\ u <= t')%Z) H)
                       <= length (recent now H))%nat).
        { apply length_filter_impl. intros u Hu Hw. specialize (Hpast u Hu). lia. }
        rewrite <- (Hrec now Hlo) in Hle. unfold Time in *. lia.
      * rewrite (filter_singleton_False _ now []) by done. simpl.
        specialize (Hcnt t'). unfold in_minute in Hcnt. unfold Time in *. lia.
Qed.

Lemma admitted_in_window limit ip requests t :
  chronological requests ->
  Z.of_nat (length (in_minute t (admitted limit ip requests ∅))) <= Z.max 0 limit.
Proof.
  intros Hch.
  destruct requests as [|r requests]; [simpl; lia|].
  apply (admitted_window limit ip (r :: requests) ∅ [] (snd r) Hch).
  - intros u Hu. by apply elem_of_nil in Hu.
  - intros t' _. unfold stored. by rewrite lookup_empty.
  - intros t'. simpl. lia.
Qed.

(** X14. The limit holds in every minute for requests handled one at a
    time: when no two invocations of the handler overlap and the clock
    does not go back between requests, then in whatever order the
    addresses come, the requests of one address that the limiter lets
    through within any window of one minute are at most
    [requestsPerMinute] (none at all when that is zero or negative). *)
Theorem rate_limit_window (requestsPerMinute : Z) (ip : string)
    (requests : list (string * Time)) (t : Time) :
  chronological requests ->
  Z.of_nat (length (in_minute t
              (let_through ip (fst (handled_in_turn requestsPerMinute requests)))))
  <= Z.max 0 requestsPerMinute.
Proof.
  intros Hch. rewrite handled_in_turn_serve. simpl.
  rewrite let_through_answered. by apply admitted_in_window.
Qed.

(** The decision and the list kept for an address depend on that list
    alone. *)
Lemma RateLimit_key limit ip now cl1 cl2 :
  cl1 !! ip = cl2 !! ip ->
  snd (Middleware.RateLimit limit ip now cl1) =
    snd (Middleware.RateLimit limit ip now cl2) /\
  fst (Middleware.RateLimit limit ip now cl1) !! ip =
    fst (Middleware.RateLimit limit ip now cl2) !! ip.
Proof.
  intros H. unfold Middleware.RateLimit. rewrite <- H.
  destruct (cl1 !! ip) as [L|] eqn:E; simpl.
  - rewrite !lookup_insert_eq. simpl.
    destruct (_ <=? _); simpl; rewrite !lookup_insert_eq; done.
  - rewrite <- H, E. simpl.
    destruct (_ <=? _); simpl; rewrite ?lookup_insert_eq, <- ?H, ?E; done.
Qed.

Lemma admitted_isolated limit ip requests : forall cl1 cl2,
  cl1 !! ip = cl2 !! ip ->
  admitted limit ip requests cl1 =
  admitted limit ip (filter (fun r => fst r = ip) requests) cl2.
Proof.
  induction requests as [|[ip' now] requests IH]; intros cl1 cl2 H; [done|].
  rewrite filter_cons. simpl. destruct (decide (ip' = ip)) as [->|Hne].
  - simpl. rewrite decide_True by done.
    destruct (RateLimit_key limit ip now cl1 cl2 H) as [-> Hk].
    f_equal. by apply IH.
  - simpl. apply IH. by rewrite RateLimit_other.
Qed.

(** X15. Addresses do not interfere when requests are handled one at a
    time: which requests of an address the limiter lets through is the
    same whether or not requests of other addresses come in between. *)
Theorem rate_limit_isolation (requestsPerMinute : Z) (ip : string)
    (requests : list (string * Time)) :
  let_through ip (fst (handled_in_turn requestsPerMinute requests)) =
  let_through ip
    (fst (handled_in_turn requestsPerMinute
            (filter (fun r => fst r = ip) requests))).
Proof.
  rewrite !handled_in_turn_serve. simpl. rewrite !let_through_answered.
  by apply admitted_isolated.
Qed.

Lemma sublist_filter_mono {A} (P : A -> Prop) `{!forall x, Decision (P x)}
    (l1 l2 : list A) :
  l1 `sublist_of` l2 -> filter P l1 `sublist_of` filter P l2.
Proof.
  induction 1 as [|x l1 l2 _ IH|x l1 l2 _ IH]; [done| |].
  - rewrite !filter_cons. destruct (decide (P x)); [by apply sublist_skip|done].
  - rewrite filter_cons. destruct (decide (P x)); [by apply sublist_cons|done].
Qed.

(** What the limiter keeps for an address are readings of requests of
    that address, in their order, and no more of them than the limit. *)
Lemma serve_stored limit ip requests : forall cl prior,
  stored cl ip `sublist_of` prior ->
  Z.of_nat (length (stored cl ip)) <= Z.max 0 limit ->
  stored (fst (serve limit requests cl)) ip
    `sublist_of` (prior ++ times_of ip requests)%list /\
  Z.of_nat (length (stored (fst (serve limit requests cl)) ip)) <= Z.max 0 limit.
Proof.
  induction requests as [|[ip' now] requests IH]; intros cl prior Hsub Hlen.
  - simpl. unfold times_of. rewrite filter_nil. simpl. by rewrite app_nil_r.
  - simpl. unfold times_of. rewrite filter_cons. simpl.
    destruct (decide (ip' = ip)) as [->|Hne].
    + simpl. rewrite (cons_middle now), app_assoc.
      destruct (RateLimit_stored limit ip now cl) as [Hst _].
      assert (Hrec : recent now (stored cl ip) `sublist_of` prior).
      { etrans; [apply sublist_filter|done]. }
      apply IH; rewrite Hst; destruct (limit <=? _) eqn:Hlim.
      * by apply sublist_inserts_r.
      * by apply sublist_app.
      * assert (length (recent now (stored cl ip)) <= length (stored cl ip))%nat
          by apply length_filter.
        lia.
      * apply Z.leb_gt in Hlim. rewrite length_app. simpl. lia.
    + apply IH; unfold stored; rewrite RateLimit_other by done; done.
Qed.

(** X16. The limiter's memory for an address is bounded when requests are
    handled one at a time: whatever the requests and their times, it
    holds for each address at most [requestsPerMinute] readings (none
    when that is zero or negative), each the reading of a request of that
    address, in arrival order. *)
Theorem rate_limit_memory (requestsPerMinute : Z) (ip : string)
    (requests : list (string * Time)) :
  Z.of_nat (length (stored (snd (handled_in_turn requestsPerMinute requests)) ip))
    <= Z.max 0 requestsPerMinute /\
  stored (snd (handled_in_turn requestsPerMinute requests)) ip
    `sublist_of` times_of ip requests.
Proof.
  rewrite handled_in_turn_serve. simpl.
  destruct (serve_stored requestsPerMinute ip requests ∅ []) as [Hsub Hlen].
  - unfold stored. by rewrite lookup_empty.
  - unfold stored. rewrite lookup_empty. simpl. lia.
  - done.
Qed.

Lemma RateLimit_admits_under_limit limit ip now earlier :
  Z.of_nat (length (recent now (times_of ip earlier))) < limit ->
  snd (Middleware.RateLimit limit ip now (fst (serve limit earlier ∅))) = true.
Proof.
  intros Hfew.
  destruct (RateLimit_stored limit ip now (fst (serve limit earlier ∅))) as [_ ->].
  destruct (serve_stored limit ip earlier ∅ []) as [Hsub _].
  - unfold stored. by rewrite lookup_empty.
  - unfold stored. rewrite lookup_empty. simpl. lia.
  - simpl in Hsub.
    apply (sublist_filter_mono (fun u => now - u < Minute)) in Hsub.
    apply sublist_length in Hsub. unfold recent in *.
    apply negb_true_iff, Z.leb_gt. unfold Time in *. lia.
Qed.

(** X17. Nobody under the limit is turned away when requests are handled
    one at a time: a request is let through whenever fewer than
    [requestsPerMinute] requests of its address, let through or not, have
    come in the minute before it. *)
Theorem rate_limit_admits_under_limit (requestsPerMinute : Z) (ip : string)
    (now : Time) (earlier : list (string * Time)) :
  Z.of_nat (length (recent now (times_of ip earlier))) < requestsPerMinute ->
  fst (handled_in_turn requestsPerMinute (earlier ++ [(ip, now)]))
    !! length earlier =
  Some {| inv_clientIP := ip; inv_now := now; inv_stage := Answered true |}.
Proof.
  intros Hfew. rewrite handled_in_turn_serve. simpl.
  rewrite serve_app. simpl. unfold answered.
  rewrite lookup_zip_with.
  rewrite (list_lookup_middle earlier [] (ip, now) (length earlier) eq_refl).
  simpl.
  rewrite (list_lookup_middle _ [] _ (length earlier))
    by (by rewrite serve_length).
  simpl. by rewrite RateLimit_admits_under_limit.
Qed.

(** ** Authentication *)

Lemma strings_Split_nonempty s sep :
  exists part parts, Middleware.strings_Split s sep = part :: parts.
Proof.
  induction s as [|a s IH]; simpl; [eauto|].
  destruct (Ascii.eqb a sep); [eauto|].
  destruct IH as (part & parts & ->). eauto.
Qed.

(** A string without the separator is its own only part. *)
Lemma strings_Split_no_sep s sep :
  ~ In sep (list_ascii_of_string s) -> Middleware.strings_Split s sep = [s].
Proof.
  induction s as [|a s IH]; simpl; intros H; [done|].
  destruct (Ascii.eqb a sep) eqn:E.
  - apply Ascii.eqb_eq in E. exfalso. apply H. by left.
  - rewrite IH; [done|]. intros Hin. apply H. by right.
Qed.

Lemma strings_Split_single_inv s sep x :
  Middleware.strings_Split s sep = [x] ->
  x = s /\ ~ In sep (list_ascii_of_string s).
Proof.
  revert x. induction s as [|a s IH]; simpl; intros x H.
  - injection H as <-. split; [done|]. intros [].
  - destruct (Ascii.eqb a sep) eqn:E.
    + destruct (strings_Split_nonempty s sep) as (part & parts & Hs).
      rewrite Hs in H. discriminate.
    + destruct (Middleware.strings_Split s sep) as [|part parts] eqn:Hs.
      * destruct (strings_Split_nonempty s sep) as (part & parts & Hs').
        congruence.
      * injection H as <- ->. destruct (IH part eq_refl) as [-> Hn].
        split; [done|]. intros [->|Hin]; [|done].
        by rewrite Ascii.eqb_refl in E.
Qed.

(** The first part and the rest, when there are two parts or more. *)
Lemma strings_Split_cons_inv s sep p0 p1 ps :
  Middleware.strings_Split s sep = p0 :: p1 :: ps ->
  exists s', s = p0 ++ String sep s' /\
             Middleware.strings_Split s' sep = p1 :: ps.
Proof.
  revert p0. induction s as [|a s IH]; simpl; intros p0 H; [discriminate|].
  destruct (Ascii.eqb a sep) eqn:E.
  - apply Ascii.eqb_eq in E as ->. injection H as <- H. exists s. done.
  - destruct (Middleware.strings_Split s sep) as [|part parts] eqn:Hs;
      [discriminate|].
    injection H as <- ->. destruct (IH part eq_refl) as (s' & -> & Hs').
    exists s'. done.
Qed.

(** Splitting after a first part that has no separator in it. *)
Lemma strings_Split_app p0 sep s :
  ~ In sep (list_ascii_of_string p0) ->
  Middleware.strings_Split (p0 ++ String sep s) sep =
    p0 :: Middleware.strings_Split s sep.
Proof.
  induction p0 as [|a p0 IH]; simpl; intros H.
  - by rewrite Ascii.eqb_refl.
  - destruct (Ascii.eqb a sep) eqn:E.
    + apply Ascii.eqb_eq in E. exfalso. apply H. by left.
    + rewrite IH; [done|]. intros Hin. apply H. by right.
Qed.

Lemma Auth_bearer token :
  ~ has_space token ->
  Middleware.strings_Split ("Bearer " ++ token) " " = ["Bearer"; token].
Proof.
  intros Hn. change ("Bearer " ++ token) with ("Bearer" ++ String " " token).
  rewrite strings_Split_app.
  - by rewrite (strings_Split_no_sep token " " Hn).
  - simpl. intros H. repeat (destruct H as [H|H]; [discriminate|]). done.
Qed.

(** X18. Exactly two kinds of request pass [Auth]: one whose [X-API-Key]
    is not empty and is one of the valid keys, and one whose
    [Authorization] header is [Bearer], one space, and a token that is
    not empty and has no space in it, whatever the token is.  Everything
    else is answered 401; in particular an empty key never passes, even
    when the empty string is among the valid keys. *)
Theorem Auth_admits_iff (validAPIKeys : list string) (apiKey authHeader : string) :
  Middleware.Auth validAPIKeys apiKey authHeader = true <->
  (apiKey <> "" /\ apiKey ∈ validAPIKeys) \/
  (exists token, authHeader = "Bearer " ++ token /\ token <> "" /\
                 ~ has_space token).
Proof.
  unfold Middleware.Auth, Middleware.validateJWT.
  assert (Hkey : negb (String.eqb apiKey "") &&
                 existsb (String.eqb apiKey) validAPIKeys = true <->
                 apiKey <> "" /\ apiKey ∈ validAPIKeys).
  { rewrite andb_true_iff, negb_true_iff, String.eqb_neq, existsb_exists.
    split.
    - intros [Hne (k & Hin & Hk)]. apply String.eqb_eq in Hk as <-.
      split; [done|]. by apply list_elem_of_In.
    - intros [Hne Hin]. split; [done|]. exists apiKey.
      split; [by apply list_elem_of_In|apply String.eqb_refl]. }
  destruct (negb (String.eqb apiKey "") &&
            existsb (String.eqb apiKey) validAPIKeys) eqn:E1.
  { split; [intros _; left; by apply Hkey|done]. }
  split.
  - intros H. right.
    destruct (negb (String.eqb authHeader "")); [|discriminate].
    destruct (Middleware.strings_Split authHeader " ")
      as [|scheme [|token [|? ?]]] eqn:Hs; try discriminate.
    destruct (String.eqb scheme "Bearer") eqn:Hb; [|discriminate].
    apply String.eqb_eq in Hb as ->.
    apply negb_true_iff, String.eqb_neq in H.
    apply strings_Split_cons_inv in Hs as (s' & -> & Hs').
    apply strings_Split_single_inv in Hs' as [-> Hn].
    exists s'. done.
  - intros [Hl|(token & -> & Hne & Hn)].
    + apply Hkey in Hl. congruence.
    + rewrite (Auth_bearer token Hn). simpl.
      apply negb_true_iff, String.eqb_neq. done.
Qed.

(** ** The metrics of the main package *)

(** X19. [countActiveBots] is the number of bots whose configuration is
    active, whatever the order in which the map is walked; so it lies
    between zero and the number of bots, the two figures [handleMetrics]
    reports side by side. *)
Theorem countActiveBots_counts {BotConfig : Type} (IsActive : BotConfig -> bool)
    (bots : gmap string BotConfig) :
  countActiveBots IsActive bots =
    Z.of_nat (size (filter (fun kv => IsActive (snd kv) = true) bots)) /\
  0 <= countActiveBots IsActive bots <= Z.of_nat (size bots).
Proof.
  assert (Hcount : countActiveBots IsActive bots =
            Z.of_nat (size (filter (fun kv => IsActive (snd kv) = true) bots))).
  { unfold countActiveBots.
    induction bots as [|i x m Hi IH] using map_ind.
    - by rewrite map_fold_empty, map_filter_empty, map_size_empty.
    - rewrite map_fold_insert_L; [|intros; repeat case_match; lia|done].
      rewrite IH. destruct (IsActive x) eqn:Hx.
      + rewrite map_filter_insert_True by done.
        rewrite map_size_insert_None; [lia|].
        by rewrite map_lookup_filter_None_2; [|left].
      + rewrite map_filter_insert_not'; [done|simpl; congruence|].
        intros y Hy. congruence. }
  split; [done|]. rewrite Hcount.
  pose proof (map_subseteq_size _ _
    (map_filter_subseteq (fun kv => IsActive (snd kv) = true) bots)).
  lia.
Qed.

(** ** The properties on concrete runs *)

(** The first client of [one_subscriber] through [session]. *)
Lemma client_identity_stable_witness :
  exists c', mem Codec.after_session !! 0%nat = Some c' /\
    clientID c' = "client_5000000000" /\ userID c' = "alice" /\
    cap (send c') = 256%nat.
Proof.
  apply (client_identity_stable Codec.Marshal Codec.Unmarshal_Message
           Codec.Marshal_Value Codec.Unmarshal_Subscription
           Codec.session Codec.one_subscriber Codec.after_session 0%nat Codec.alice);
    vm_compute; reflexivity.
Defined.

(** The unregistered client through a connection, a publish, a write and
    a second unregister. *)
Lemma closed_channel_stays_closed_witness :
  exists c', mem Codec.after_aftermath !! 1%nat = Some c' /\
    closed (send c') = true /\
    exists taken, buf (send c') = drop taken (buf (send Codec.bob_closed)).
Proof.
  apply (closed_channel_stays_closed Codec.Marshal Codec.Unmarshal_Message
           Codec.Marshal_Value Codec.Unmarshal_Subscription
           Codec.aftermath Codec.bob_gone Codec.after_aftermath 1%nat
           Codec.bob_closed);
    vm_compute; reflexivity.
Defined.

Lemma removed_client_never_registered_again_witness :
  ~ registered Codec.after_aftermath 1%nat.
Proof.
  apply (removed_client_never_registered_again Codec.Marshal Codec.Unmarshal_Message
           Codec.Marshal_Value Codec.Unmarshal_Subscription
           Codec.aftermath Codec.bob_gone Codec.after_aftermath 1%nat).
  - vm_compute. reflexivity.
  - exists Codec.bob_closed. vm_compute. reflexivity.
  - intros [b H]. vm_compute in H. discriminate.
Defined.

Lemma queue_within_capacity_witness :
  cap (send Codec.alice) = 256%nat /\
  (length (buf (send Codec.alice)) <= 256)%nat.
Proof.
  apply (queue_within_capacity Codec.Marshal Codec.Unmarshal_Message
           Codec.Marshal_Value Codec.Unmarshal_Subscription
           [EvConnect "alice" (5 * Second); EvConnect "" (6 * Second);
            EvFrame 0%nat "subscribe:orders" (7 * Second)]
           Codec.one_subscriber 0%nat);
    vm_compute; reflexivity.
Defined.

Lemma registry_events_never_panic_witness :
  exists w,
    Codec.run [EvConnect "alice" (5 * Second); EvBroadcast (Codec.note "tick");
               EvUnregister 0%nat; EvUnregister 0%nat; EvUnregister 7%nat;
               EvConnect "" (6 * Second); EvBroadcast (Codec.note "tock")] NewHub
      = Ok w /\
    registry_open w.
Proof.
  apply (registry_events_never_panic Codec.Marshal Codec.Unmarshal_Message
           Codec.Marshal_Value Codec.Unmarshal_Subscription).
  repeat constructor.
Defined.

Lemma publishes_fill_then_evict_witness :
  exists c', mem Codec.after_two_ticks !! 0%nat = Some c' /\
    buf (send c') =
      (buf (send Codec.alice) ++ ["tick||null||0|"; "tock||null||0|"])%list.
Proof.
  destruct (publishes_fill_then_evict Codec.Marshal Codec.Unmarshal_Message
              Codec.Marshal_Value Codec.Unmarshal_Subscription
              Codec.two_ticks ["tick||null||0|"; "tock||null||0|"]
              Codec.one_subscriber Codec.after_two_ticks 0%nat Codec.alice)
    as (c' & Hm & _ & Hb & _).
  - repeat constructor.
  - vm_compute. reflexivity.
  - exists true. vm_compute. reflexivity.
  - vm_compute. reflexivity.
  - reflexivity.
  - exists c'. split; [exact Hm|exact Hb].
Defined.

Lemma publishes_written_in_order_witness :
  exists first rest w'',
    (buf (send Codec.alice) ++ ["tick||null||0|"; "tock||null||0|"])%list
      = first :: rest /\
    writePump_recv 0%nat NextWriterFails Codec.after_two_ticks =
      Ok (w'', Dropped first) /\
    queue w'' 0%nat = rest /\ send_open w'' 0%nat /\
    clients w'' = clients Codec.after_two_ticks.
Proof.
  apply (publishes_written_in_order Codec.Marshal Codec.Unmarshal_Message
           Codec.Marshal_Value Codec.Unmarshal_Subscription
           Codec.two_ticks ["tick||null||0|"; "tock||null||0|"]
           Codec.one_subscriber Codec.after_two_ticks 0%nat Codec.alice
           NextWriterFails).
  - repeat constructor.
  - vm_compute. reflexivity.
  - exists true. vm_compute. reflexivity.
  - vm_compute. reflexivity.
  - reflexivity.
  - vm_compute. lia.
  - discriminate.
Defined.

Lemma subscribe_unsubscribe_round_trip_witness :
  exists c2, mem Codec.bob_unsubscribed !! 1%nat = Some c2 /\
    subscriptions c2 = delete "trades" (subscriptions Codec.bob).
Proof.
  destruct (subscribe_unsubscribe_round_trip Codec.Marshal Codec.Marshal_Value
              Codec.Unmarshal_Subscription 1%nat
              (Codec.subscribe "trades;X;") (Codec.subscribe "trades")
              {| Subscription_Type := "trades"; Instruments := ["X"];
                 AccountIDs := [] |}
              {| Subscription_Type := "trades"; Instruments := [];
                 AccountIDs := [] |}
              (8 * Second) (9 * Second)
              Codec.one_subscriber Codec.bob_subscribed Codec.bob_unsubscribed
              Codec.bob)
    as (c2 & Hm & Hs & _); try (vm_compute; reflexivity).
  exists c2. split; [exact Hm|exact Hs].
Defined.


Lemma frame_handling_is_local_witness :
  clients Codec.bob_answered = clients Codec.one_subscriber /\
  (forall q, q ≠ 1%nat ->
     mem Codec.bob_answered !! q = mem Codec.one_subscriber !! q) /\
  exists c c', mem Codec.one_subscriber !! 1%nat = Some c /\
    mem Codec.bob_answered !! 1%nat = Some c' /\
    clientID c' = clientID c /\ userID c' = userID c.
Proof.
  apply (frame_handling_is_local Codec.Marshal Codec.Unmarshal_Message
           Codec.Marshal_Value Codec.Unmarshal_Subscription
           1%nat "ping" (9 * Second) Codec.one_subscriber Codec.bob_answered).
  vm_compute. reflexivity.
Defined.

Lemma Codec_Marshal_reply (m : Message) :
  reply_data (Data m) -> is_Some (Codec.Marshal m).
Proof.
  unfold Codec.Marshal. intros [->|[s ->]]; simpl; eauto.
Qed.

Lemma every_frame_answered_once_witness :
  exists w' c' out reply,
    Codec.readPump_frame 1%nat "ping" (9 * Second) Codec.one_subscriber = Ok w' /\
    mem w' !! 1%nat = Some c' /\
    Codec.Marshal out = Some reply /\
    buf (send c') = (buf (send Codec.bob) ++ [reply])%list /\
    closed (send c') = false /\
    ClientID out = clientID Codec.bob /\ Timestamp out = Unix (9 * Second) /\
    (Type_ out = "pong" <->
     exists message, Codec.Unmarshal_Message "ping" = Some message /\
                     Type_ message = "ping").
Proof.
  apply (every_frame_answered_once Codec.Marshal Codec.Unmarshal_Message
           Codec.Marshal_Value Codec.Unmarshal_Subscription
           1%nat "ping" (9 * Second) Codec.one_subscriber Codec.bob
           Codec_Marshal_reply);
    vm_compute; reflexivity.
Defined.

Lemma rate_limit_window_witness :
  Z.of_nat (length (in_minute (60 * Second)
              (let_through "10.0.0.1" (fst (handled_in_turn 2 Codec.traffic)))))
  <= Z.max 0 2.
Proof.
  apply (rate_limit_window 2 "10.0.0.1" Codec.traffic (60 * Second)).
  vm_compute. repeat split; discriminate.
Defined.

Lemma rate_limit_admits_under_limit_witness :
  fst (handled_in_turn 2 (Codec.traffic ++ [("10.0.0.1", 60 * Second + 4)]))
    !! length Codec.traffic =
  Some {| inv_clientIP := "10.0.0.1"; inv_now := 60 * Second + 4;
          inv_stage := Answered true |}.
Proof.
  apply (rate_limit_admits_under_limit 2 "10.0.0.1" (60 * Second + 4) Codec.traffic).
  vm_compute. reflexivity.
Defined.

(** ** More on the pumps and the loops *)

Lemma Run_unregister_gone p w w' :
  Run_unregister p w = Ok w' -> clients w' !! p = None.
Proof.
  unfold Run_unregister. intros H.
  destruct (clients w !! p) as [b|] eqn:Hb.
  - apply bind_Ok_inv in H as (c & _ & H).
    apply bind_Ok_inv in H as (ch & _ & H).
    injection H as <-. simpl. apply lookup_delete_eq.
  - by injection H as <-.
Qed.

(** X21. A closed channel never blocks the write pump, and the close frame
    comes after what was queued: a turn of the pump on a closed channel
    that still holds envelopes takes them, all as one batch with a writer
    (and the turn after a flushed batch finds the channel closed and empty,
    which is where the pump writes the close frame and returns), the first
    one only when [NextWriter] fails (the pump then returns and the rest
    is never written); on a closed and empty channel the turn is the close
    frame.  The registry is not involved. *)
Theorem closed_queue_drained_then_closed (p : ptr) (conn : transport)
    (w : World) (c : Client) :
  mem w !! p = Some c ->
  closed (send c) = true ->
  exists w1 out,
    writePump_recv p conn w = Ok (w1, out) /\
    out <> Waiting /\
    clients w1 = clients w /\
    match buf (send c) with
    | [] => out = CloseFrame /\ w1 = w
    | message :: queued =>
        match conn with
        | WriterOk =>
            out = Batch (message :: queued) true /\
            forall conn', writePump_recv p conn' w1 = Ok (w1, CloseFrame)
        | CloseFails =>
            out = Batch (message :: queued) false /\ queue w1 p = []
        | NextWriterFails =>
            out = Dropped message /\ queue w1 p = queued
        end
    end.
Proof.
  intros Hm Hc. unfold writePump_recv at 1. unfold load. rewrite Hm. simpl.
  destruct (buf (send c)) as [|b bs] eqn:Hb.
  - rewrite Hc. exists w, CloseFrame. done.
  - destruct conn; eexists; eexists; (split; [reflexivity|]);
      (split; [discriminate|]); (split; [reflexivity|]); (split; [reflexivity|]).
    + intros conn'. unfold writePump_recv, load. simpl.
      rewrite lookup_insert_eq. simpl. by rewrite Hc.
    + unfold queue. simpl. by rewrite lookup_insert_eq.
    + unfold queue. simpl. by rewrite lookup_insert_eq.
Qed.

Lemma closed_queue_drained_then_closed_witness :
  exists w1 out,
    writePump_recv 1%nat WriterOk Codec.bob_gone = Ok (w1, out) /\
    out <> Waiting /\
    clients w1 = clients Codec.bob_gone /\
    out = Batch (buf (send Codec.bob)) true /\
    forall conn', writePump_recv 1%nat conn' w1 = Ok (w1, CloseFrame).
Proof.
  apply (closed_queue_drained_then_closed 1%nat WriterOk Codec.bob_gone
           Codec.bob_closed);
    vm_compute; reflexivity.
Defined.

(** X22. The order in which Go walks [h.clients] does not show: a publish,
    global or by topic, done over the registered clients in any order
    returns exactly when it returns in any other, with the same state and
    the same attempts. *)
Theorem publish_order_irrelevant (data : bytes) (t : string) (keys : list ptr)
    (w : World) :
  keys ≡ₚ registered_keys w ->
  match range_clients (send_or_evict data) keys w, Run_broadcast data w with
  | Ok (w1, log1), Ok (w2, log2) => w1 = w2 /\ log1 ≡ₚ log2
  | Panic _, Panic _ => True
  | _, _ => False
  end /\
  match range_clients (subscriber_body t data) keys w,
        range_clients (subscriber_body t data) (registered_keys w) w with
  | Ok (w1, log1), Ok (w2, log2) => w1 = w2 /\ log1 ≡ₚ log2
  | Panic _, Panic _ => True
  | _, _ => False
  end.
Proof.
  intros Hperm.
  assert (Hnd : NoDup keys) by (rewrite Hperm; apply registered_keys_NoDup).
  split.
  - rewrite Run_broadcast_select.
    rewrite (range_clients_ext (send_or_evict data)
               (select_body (fun _ => true) data)) by apply send_or_evict_select_body.
    by apply range_clients_order.
  - apply (range_clients_order (subscribed t) data keys (registered_keys w) w Hnd Hperm).
Qed.

Lemma publish_order_irrelevant_witness :
  exists w' log1 log2,
    range_clients (send_or_evict "tick") [0%nat; 1%nat] Codec.one_subscriber
      = Ok (w', log1) /\
    Run_broadcast "tick" Codec.one_subscriber = Ok (w', log2) /\
    log1 ≡ₚ log2.
Proof.
  assert (Hperm : [0%nat; 1%nat] ≡ₚ registered_keys Codec.one_subscriber).
  { vm_compute. apply perm_swap. }
  destruct (publish_order_irrelevant "tick" "orders" [0%nat; 1%nat]
              Codec.one_subscriber Hperm) as [H _].
  destruct (range_clients (send_or_evict "tick") [0%nat; 1%nat] Codec.one_subscriber)
    as [[w1 log1]|why] eqn:E1;
    destruct (Run_broadcast "tick" Codec.one_subscriber) as [[w2 log2]|why'] eqn:E2;
    try (vm_compute in E1; discriminate); try (vm_compute in E2; discriminate).
  destruct H as [<- Hlog]. exists w1, log1, log2. done.
Defined.

Section Pumps.

Variable json_Marshal : Message -> option bytes.
Variable json_Unmarshal_Message : bytes -> option Message.
Variable json_Marshal_Value : Value -> option bytes.
Variable json_Unmarshal_Subscription : bytes -> option Subscription.

Local Abbreviation step :=
  (step json_Marshal json_Unmarshal_Message json_Marshal_Value
     json_Unmarshal_Subscription).
Local Abbreviation run :=
  (run json_Marshal json_Unmarshal_Message json_Marshal_Value
     json_Unmarshal_Subscription).
Local Abbreviation readPump_loop :=
  (readPump_loop json_Marshal json_Unmarshal_Message json_Marshal_Value
     json_Unmarshal_Subscription).
Local Abbreviation readPump :=
  (readPump json_Marshal json_Unmarshal_Message json_Marshal_Value
     json_Unmarshal_Subscription).
Local Abbreviation readPump_frame :=
  (readPump_frame json_Marshal json_Unmarshal_Message json_Marshal_Value
     json_Unmarshal_Subscription).

Lemma exit_unregistered p w w' st :
  (w1 ← Run_unregister p w; Ok (w1, Exited)) = Ok (w', st) -> ~ registered w' p.
Proof using Type.
  intros H. apply bind_Ok_inv in H as (w1 & Hu & H). injection H as <- _.
  apply Run_unregister_gone in Hu. unfold registered. rewrite Hu.
  by intros [? ?].
Qed.

Lemma readPump_loop_exit frames : forall p deadline until w w',
  readPump_loop p deadline frames until w = Ok (w', Exited) ->
  ~ registered w' p.
Proof using Type.
  induction frames as [|i frames IH]; intros p deadline until w w' H; simpl in H.
  - destruct (deadline <? until); [by apply exit_unregistered in H|discriminate].
  - destruct (deadline <? arrival i); [by apply exit_unregistered in H|].
    destruct i as [now|now messageData|now].
    + by apply IH in H.
    + destruct (maxMessageSize <? _); [by apply exit_unregistered in H|].
      apply bind_Ok_inv in H as (w1 & _ & H). by apply IH in H.
    + by apply exit_unregistered in H.
Qed.

(** X20. The read pump never leaves its client behind: whenever
    [readPump] has exited, on a read error, an oversized frame or a
    lapsed deadline, the client is out of the registry. *)
Theorem read_pump_exit_unregisters (p : ptr) (start until : Time)
    (frames : list inbound) (w w' : World) :
  readPump p start frames until w = Ok (w', Exited) ->
  ~ registered w' p.
Proof using Type. apply readPump_loop_exit. Qed.

(** X23. On the hub's own paths the registry invariant holds: in every
    state reached from [NewHub] by connections, unregistrations, publishes
    and write-pump receives, a client is registered exactly when its send
    channel is open. *)
Theorem hub_paths_keep_registry_invariant (es : list event) (w : World) :
  Forall (fun e => is_hub_event e = true) es ->
  run es NewHub = Ok w ->
  registry_invariant w.
Proof using Type.
  intros Hes H.
  apply (hub_run_invariant json_Marshal json_Unmarshal_Message json_Marshal_Value
           json_Unmarshal_Subscription es NewHub w Hes NewHub_invariant H).
Qed.

(** [SendMessage] to a queue with room leaves the channel as open or
    closed as it was. *)
Lemma SendMessage_room p message now w w' c :
  SendMessage json_Marshal p message now w = Ok w' ->
  mem w !! p = Some c -> chan_full (send c) = false ->
  exists c', mem w' !! p = Some c' /\ closed (send c') = closed (send c).
Proof using Type.
  intros H Hm Hf.
  rewrite (SendMessage_cases json_Marshal p message now w c Hm) in H.
  destruct (json_Marshal _) as [data|]; [|injection H as <-; eauto].
  destruct (closed (send c)) eqn:Hc; [discriminate|]. rewrite Hf in H.
  injection H as <-. simpl. rewrite lookup_insert_eq. eauto.
Qed.

Lemma readPump_frame_room p frame now w w' c :
  readPump_frame p frame now w = Ok w' ->
  mem w !! p = Some c -> chan_full (send c) = false ->
  exists c', mem w' !! p = Some c' /\ closed (send c') = closed (send c).
Proof using Type.
  intros H Hm Hf.
  assert (Hstore : forall m S,
    SendMessage json_Marshal p m now (store p (set_subscriptions c S) w) = Ok w' ->
    exists c', mem w' !! p = Some c' /\ closed (send c') = closed (send c)).
  { intros m S Hs.
    apply (SendMessage_room p m now _ w' (set_subscriptions c S)) in Hs;
      [done|simpl; apply lookup_insert_eq|done]. }
  unfold readPump_frame, handleMessage, handleSubscription, handleUnsubscription
    in H.
  destruct (json_Unmarshal_Message frame) as [message|];
    [|by apply (SendMessage_room p _ now w w' c) in H].
  repeat case_decide.
  - destruct (json_Unmarshal_Subscription _) as [s|];
      [|by apply (SendMessage_room p _ now w w' c) in H].
    unfold load in H. rewrite Hm in H. simpl in H. by apply Hstore in H.
  - destruct (json_Unmarshal_Subscription _) as [s|];
      [|by apply (SendMessage_room p _ now w w' c) in H].
    unfold load in H. rewrite Hm in H. simpl in H. by apply Hstore in H.
  - by apply (SendMessage_room p _ now w w' c) in H.
  - by apply (SendMessage_room p _ now w w' c) in H.
Qed.

(** X24. A frame from a client whose queue has room does no harm to the
    registry: if every registered client had an open channel before the
    frame was handled, every registered client has one after. *)
Theorem frame_with_room_keeps_registry_open (p : ptr) (frame : bytes)
    (now : Time) (w w' : World) (c : Client) :
  registry_open w ->
  mem w !! p = Some c ->
  chan_full (send c) = false ->
  readPump_frame p frame now w = Ok w' ->
  registry_open w'.
Proof using Type.
  intros Hopen Hm Hf H.
  destruct (readPump_frame_room p frame now w w' c H Hm Hf) as (c' & Hm' & Hc').
  apply (readPump_frame_local json_Marshal json_Unmarshal_Message
           json_Marshal_Value json_Unmarshal_Subscription) in H
    as (c0 & c0' & _ & _ & _ & Hcl & Hoth).
  intros q Hq. unfold registered in Hq. rewrite Hcl in Hq.
  destruct (Hopen q Hq) as (cq & Hmq & Hcq).
  destruct (decide (q = p)) as [->|Hne].
  - exists c'. split; [done|]. congruence.
  - exists cq. split; [by rewrite Hoth|done].
Qed.

End Pumps.

Lemma read_pump_exit_unregisters_witness :
  ~ registered Codec.silent 0%nat.
Proof.
  apply (read_pump_exit_unregisters Codec.Marshal Codec.Unmarshal_Message
           Codec.Marshal_Value Codec.Unmarshal_Subscription
           0%nat 0 (61 * Second) [] Codec.one_subscriber Codec.silent).
  vm_compute. reflexivity.
Defined.

Lemma hub_paths_keep_registry_invariant_witness :
  registry_invariant (Codec.world_of (Codec.run Codec.hub_only NewHub)).
Proof.
  apply (hub_paths_keep_registry_invariant Codec.Marshal Codec.Unmarshal_Message
           Codec.Marshal_Value Codec.Unmarshal_Subscription Codec.hub_only).
  - repeat constructor.
  - vm_compute. reflexivity.
Defined.

Lemma frame_with_room_keeps_registry_open_witness :
  registry_open Codec.bob_answered.
Proof.
  apply (frame_with_room_keeps_registry_open Codec.Marshal Codec.Unmarshal_Message
           Codec.Marshal_Value Codec.Unmarshal_Subscription
           1%nat "ping" (9 * Second) Codec.one_subscriber Codec.bob_answered
           Codec.bob).
  - apply registry_openb_sound. vm_compute. reflexivity.
  - vm_compute. reflexivity.
  - vm_compute. reflexivity.
  - vm_compute. reflexivity.
Defined.
